(** * dcs-package-importer: ingestion, tree walk and shard merge

    A shallow embedding of the package importer of Debian Code Search
    (the [main] package with [importPackage], [mergeToShard],
    [unpackAndIndex] and [main]) together with the properties of its
    behaviour that the design document states.

    Go strings are byte strings and are modelled by [string]; Go maps
    from strings to [bool] by [gmap string bool]; the file system, the
    job queue and the log are fields of an explicit [World] that the
    handlers thread through a small state-and-exit monad.  Everything the
    operating system decides (which call fails, what a directory lists,
    which random suffix a temporary file gets) is read from an [Env]. *)

From stdpp Require Import gmap strings list fin_maps.
From Stdlib Require Import Ascii.

(** ** Byte strings *)

(** [s[n:]] for [n <= len(s)]; callers check the bound where Go would
    panic. *)
Fixpoint string_drop (n : nat) (s : string) : string :=
  match n, s with
  | O, _ => s
  | S n', String _ s' => string_drop n' s'
  | S _, EmptyString => EmptyString
  end.

(** [s[:n]] for [n <= len(s)]. *)
Fixpoint string_take (n : nat) (s : string) : string :=
  match n, s with
  | O, _ => EmptyString
  | S n', String c s' => String c (string_take n' s')
  | S _, EmptyString => EmptyString
  end.

(** [s[n:]] with Go's bounds check: [None] stands for the run-time panic
    "slice bounds out of range". *)
Definition slice_from (s : string) (n : nat) : option string :=
  if decide (n ≤ String.length s) then Some (string_drop n s) else None.

Fixpoint last_byte (s : string) : option ascii :=
  match s with
  | EmptyString => None
  | String c EmptyString => Some c
  | String _ s' => last_byte s'
  end.

(** [strings.HasSuffix]:
    [len(s) >= len(suffix) && s[len(s)-len(suffix):] == suffix]. *)
Definition strings_HasSuffix (s suffix : string) : bool :=
  bool_decide (String.length suffix ≤ String.length s) &&
  bool_decide (string_drop (String.length s - String.length suffix) s = suffix).

(** [strings.Split(s, sep)] for a one-byte separator: the pieces between
    the separators, in order; never the empty list ([Split("", ",")] is
    [[""]]). *)
Fixpoint split_on (sep : ascii) (s : string) : list string :=
  match s with
  | EmptyString => [EmptyString]
  | String c s' =>
      if decide (c = sep) then EmptyString :: split_on sep s'
      else match split_on sep s' with
           | [] => [String c EmptyString]
           | x :: xs => String c x :: xs
           end
  end.

Definition strings_Split_comma (s : string) : list string := split_on "," s.

(** [strings.Join(elems, sep)]. *)
Fixpoint strings_Join (elems : list string) (sep : string) : string :=
  match elems with
  | [] => ""
  | [e] => e
  | e :: rest => e +:+ sep +:+ strings_Join rest sep
  end.

(** ** [path/filepath] on a Unix system *)

(** [filepath.Split]: the text up to and including the final slash, and
    the text after it. *)
Fixpoint filepath_Split (path : string) : string * string :=
  match path with
  | EmptyString => (EmptyString, EmptyString)
  | String c rest =>
      let '(dir, file) := filepath_Split rest in
      if decide (c = "/"%char) then
        match dir with
        | EmptyString => (String c EmptyString, rest)
        | _ => (String c dir, file)
        end
      else
        match dir with
        | EmptyString => (EmptyString, String c file)
        | _ => (String c dir, file)
        end
  end.

(** One step of [filepath.Clean] on the stack of kept elements (top
    first): empty and [.] elements vanish, [..] removes the element before
    it, except at the root (where it vanishes) and at the start of a
    relative path (where it stays). *)
Definition clean_step (rooted : bool) (stack : list string) (elem : string)
  : list string :=
  if decide (elem = "") then stack
  else if decide (elem = ".") then stack
  else if decide (elem = "..") then
    match stack with
    | [] => if rooted then [] else [".."]
    | top :: below =>
        if decide (top = "..") then ".." :: stack else below
    end
  else elem :: stack.

Definition is_rooted (path : string) : bool :=
  match path with
  | String "/" _ => true
  | _ => false
  end.

(** [filepath.Clean]: the shortest equivalent path. *)
Definition filepath_Clean (path : string) : string :=
  let rooted := is_rooted path in
  let kept := rev (fold_left (clean_step rooted) (split_on "/" path) []) in
  let out := (if rooted then "/" else "") +:+ strings_Join kept "/" in
  if decide (out = "") then "." else out.

(** [filepath.Join]: the elements from the first non-empty one on, joined
    by slashes and cleaned; the empty string when all are empty. *)
Fixpoint filepath_Join (elem : list string) : string :=
  match elem with
  | [] => ""
  | e :: rest =>
      if decide (e = "") then filepath_Join rest
      else filepath_Clean (strings_Join elem "/")
  end.

(** Removes the slashes at the end of [path] (first loop of
    [filepath.Base]). *)
Fixpoint strip_trailing_slashes (path : string) : string :=
  match path with
  | EmptyString => EmptyString
  | String c rest =>
      match strip_trailing_slashes rest with
      | EmptyString => if decide (c = "/"%char) then EmptyString
                       else String c EmptyString
      | rest' => String c rest'
      end
  end.

(** [filepath.Base]: the last element of [path]. *)
Definition filepath_Base (path : string) : string :=
  if decide (path = "") then "."
  else
    let path := strip_trailing_slashes path in
    let path := snd (filepath_Split path) in
    if decide (path = "") then "/" else path.

(** [filepath.Dir]: all but the last element of [path], cleaned. *)
Definition filepath_Dir (path : string) : string :=
  filepath_Clean (fst (filepath_Split path)).

(** ** [unicode/utf8] *)

Definition byte_in (lo hi : N) (c : ascii) : bool :=
  let b := N_of_ascii c in (lo <=? b)%N && (b <=? hi)%N.

(** A continuation byte, [10xxxxxx]. *)
Definition is_cont (c : ascii) : bool := byte_in 128 191 c.

(** [utf8.ValidString]: the bytes of [s] are a sequence of well-formed
    UTF-8 encodings: no stray or missing continuation byte, no overlong
    form, no surrogate half, nothing above U+10FFFF. *)
Fixpoint utf8_ValidString (s : string) : bool :=
  match s with
  | EmptyString => true
  | String c0 s1 =>
      if byte_in 0 127 c0 then utf8_ValidString s1
      else
        match s1 with
        | EmptyString => false
        | String c1 s2 =>
            if byte_in 194 223 c0 then is_cont c1 && utf8_ValidString s2
            else
              match s2 with
              | EmptyString => false
              | String c2 s3 =>
                  if byte_in 224 239 c0 then
                    (if byte_in 224 224 c0 then byte_in 160 191 c1
                     else if byte_in 237 237 c0 then byte_in 128 159 c1
                     else is_cont c1)
                    && is_cont c2 && utf8_ValidString s3
                  else
                    match s3 with
                    | EmptyString => false
                    | String c3 s4 =>
                        if byte_in 240 244 c0 then
                          (if byte_in 240 240 c0 then byte_in 144 191 c1
                           else if byte_in 244 244 c0 then byte_in 128 143 c1
                           else is_cont c1)
                          && is_cont c2 && is_cont c3 && utf8_ValidString s4
                        else false
                    end
              end
        end
  end.

(** ** Data of the program and of its environment *)

(** A Go [error] as far as the program looks at it: whether [os.IsExist]
    holds of it, and its message. *)
Record error := mkError { IsExist : bool; Error : string }.

(** The file kinds [os.FileInfo] distinguishes here: [IsDir()] and
    [Mode().IsRegular()]. *)
Record FileInfo := mkFileInfo { IsDir : bool; IsRegular : bool }.

(** An unpacked source tree: files (regular or not: symlinks, devices)
    and directories with their entries in the order [readDirNames] lists
    them. *)
#[local] Unset Elimination Schemes.
Inductive node :=
| File (regular : bool)
| Dir (entries : list (string * node)).
#[local] Set Elimination Schemes.

Definition lstat_info (n : node) : FileInfo :=
  match n with
  | File regular => mkFileInfo false regular
  | Dir _ => mkFileInfo true false
  end.

(** Contents of a flat file: raw bytes (uploads, a fresh temporary file,
    a profile), or an index shard, of which only the names of the
    documents it holds are kept. *)
Inductive FileData :=
| Bytes (b : string)
| IndexData (docs : list string).

(** Arguments of the [Printf] verbs. *)
Inductive LogArg :=
| ArgStr (s : string)
| ArgInt (n : nat)
| ArgErr (e : error)
| ArgDuration.

(** What the process does that is visible from outside, in order. *)
Inductive Event :=
| Printf (format : string) (args : list LogArg)
| Fatal (format : string) (args : list LogArg)
| Exec (argv : list string)
| IndexCreate (path : string)
| AddFile (index path rel : string)
| Flush (index : string)
| ConcatN (dst : string) (srcs : list string)
| StartCPUProfile (path : string)
| StopCPUProfile.

#[global] Instance error_eq_dec : EqDecision error.
Proof. solve_decision. Defined.
#[global] Instance LogArg_eq_dec : EqDecision LogArg.
Proof. solve_decision. Defined.
#[global] Instance Event_eq_dec : EqDecision Event.
Proof. solve_decision. Defined.

(** The state the handlers and workers share: flat files by path, the
    unpacked trees by their root directory, the jobs sent on
    [indexQueue] and not yet received, and the trace of events. *)
Record World := mkWorld {
  fs : gmap string FileData;
  trees : gmap string node;
  indexQueue : list string;
  trace : list Event
}.

(** The answers of the operating system and of the external tools.
    [None] is Go's [nil] error. *)
Record Env := mkEnv {
  mkdir_result : string → option error;
  create_result : string → option error;
  copy_result : string → option (nat * error);
  open_result : string → option error;
  readdirnames_result : string → error + list string;
  os_TempDir : string;
  tempfile_rand : nat → N;
  tempdir_result : error + string;
  dpkg_source_result : string → string → error + node;
  lstat_result : string → option error;
  readdir_result : string → option error;
  remove_result : string → option error;
  removeall_result : string → option error;
  addfile_result : string → option error
}.

(** The command-line flags. *)
Record Flags := mkFlags {
  listenAddress : string;
  unpackedPath : string;
  cpuProfile : string;
  ignoredDirnamesList : string;
  ignoredFilenamesList : string;
  ignoredSuffixesList : string
}.

(** The flags together with the package-level variables [main] fills
    before it starts the workers and the server. *)
Record Config := mkConfig {
  flags : Flags;
  ignoredDirnames : gmap string bool;
  ignoredFilenames : gmap string bool;
  ignoredSuffixes : gmap string bool;
  tmpdir : string
}.

(** [m[k]] on a [map[string]bool]: [false] for a missing key. *)
Definition map_index (m : gmap string bool) (k : string) : bool :=
  default false (m !! k).

Record Request := mkRequest { URL_Path : string; Body : string }.

(** What the handler left in its [http.ResponseWriter]. *)
Record Response := mkResponse { status : nat; body : string }.

Definition StatusOK : nat := 200.
Definition StatusInternalServerError : nat := 500.

Definition newline : string := String "010" EmptyString.

(** ** The monad of the handlers *)

(** How a piece of code ends: it returns, the process exits
    ([log.Fatal] calls [os.Exit(1)]), or a run-time panic unwinds it. *)
Inductive Outcome (A : Type) :=
| Returned (a : A)
| Exited (code : nat)
| Panicked (msg : string).
Arguments Returned {A} a.
Arguments Exited {A} code.
Arguments Panicked {A} msg.

Definition M (A : Type) : Type := World → World * Outcome A.

Definition ret {A} (a : A) : M A := λ w, (w, Returned a).

Definition bind {A B} (m : M A) (k : A → M B) : M B :=
  λ w, match m w with
       | (w', Returned a) => k a w'
       | (w', Exited c) => (w', Exited c)
       | (w', Panicked msg) => (w', Panicked msg)
       end.

Notation "'let*' x ':=' m 'in' k" := (bind m (λ x, k))
  (at level 10, x name, m at level 100, k at level 200).
Notation "'let*' ' p ':=' m 'in' k" := (bind m (λ x, let 'p := x in k))
  (at level 10, p pattern, m at level 100, k at level 200).
Notation "m ;;; k" := (bind m (λ _, k))
  (at level 100, right associativity).

Definition emit (e : Event) : M unit :=
  λ w, (mkWorld (fs w) (trees w) (indexQueue w) (trace w ++ [e]), Returned tt).

Definition get_fs : M (gmap string FileData) := λ w, (w, Returned (fs w)).

Definition set_fs (f : gmap string FileData) : M unit :=
  λ w, (mkWorld f (trees w) (indexQueue w) (trace w), Returned tt).

Definition get_trees : M (gmap string node) := λ w, (w, Returned (trees w)).

Definition set_trees (t : gmap string node) : M unit :=
  λ w, (mkWorld (fs w) t (indexQueue w) (trace w), Returned tt).

(** [indexQueue <- job]. *)
Definition send (job : string) : M unit :=
  λ w, (mkWorld (fs w) (trees w) (indexQueue w ++ [job]) (trace w),
        Returned tt).

Definition panic {A} (msg : string) : M A := λ w, (w, Panicked msg).

Definition log_Printf (format : string) (args : list LogArg) : M unit :=
  emit (Printf format args).

(** [log.Fatal] and [log.Fatalf]: the message, then [os.Exit(1)];
    deferred calls do not run. *)
Definition log_Fatalf {A} (format : string) (args : list LogArg) : M A :=
  λ w, (mkWorld (fs w) (trees w) (indexQueue w)
          (trace w ++ [Fatal format args]),
        Exited 1).

Definition log_Fatal {A} (e : error) : M A := log_Fatalf "%v" [ArgErr e].

(** ** Operating system and library calls *)

Definition ENOENT : error := mkError false "no such file or directory".
Definition EEXIST : error := mkError true "file exists".
Definition ENOTEMPTY : error := mkError false "directory not empty".

Definition digit_char (d : N) : ascii := ascii_of_N (48 + d).

(** The last [k] decimal digits of [n], padded with zeros. *)
Fixpoint decimal_digits (k : nat) (n : N) (acc : string) : string :=
  match k with
  | O => acc
  | S k' => decimal_digits k' (n / 10)%N (String (digit_char (n mod 10)%N) acc)
  end.

(** [nextSuffix] of [io/ioutil]:
    [strconv.Itoa(int(1e9 + r%1e9))[1:]], nine decimal digits. *)
Definition nextSuffix (r : N) : string := decimal_digits 9 r EmptyString.

(** [os.Remove] seen from the entry at [path]: it fails on an entry that
    is gone and on a directory that has entries, and otherwise as the
    system decides; on success the entry is gone. *)
Definition os_Remove (env : Env) (path : string) (cur : option node)
  : option error * option node :=
  match cur with
  | None => (Some ENOENT, None)
  | Some (Dir (_ :: _)) => (Some ENOTEMPTY, cur)
  | Some _ =>
      match remove_result env path with
      | Some e => (Some e, cur)
      | None => (None, None)
      end
  end.

(** [os.RemoveAll]: removes [path] and all it contains; an entry that is
    gone already is no error. *)
Definition os_RemoveAll (env : Env) (path : string) (cur : option node)
  : option error * option node :=
  match cur with
  | None => (None, None)
  | Some _ =>
      match removeall_result env path with
      | Some e => (Some e, cur)
      | None => (None, None)
      end
  end.

Section Importer.
Context (cfg : Config) (env : Env).

(** [os.Open]: the empty name never opens. *)
Definition os_Open (name : string) : option error :=
  if decide (name = "") then Some ENOENT else open_result env name.

Definition os_Mkdir (path : string) : M (option error) :=
  ret (mkdir_result env path).

(** [os.Create]: creates the file, or truncates it when it exists. *)
Definition os_Create (path : string) : M (option error) :=
  match create_result env path with
  | Some e => ret (Some e)
  | None =>
      let* f := get_fs in
      set_fs (<[path := Bytes ""]> f) ;;; ret None
  end.

(** [io.Copy(file, r.Body)]: the bytes written and the error that
    stopped the copy, if any. *)
Definition io_Copy (path body : string) : M (nat * option error) :=
  let* f := get_fs in
  match copy_result env path with
  | Some (n, e) =>
      let written := string_take n body in
      set_fs (<[path := Bytes written]> f) ;;;
      ret (String.length written, Some e)
  | None =>
      set_fs (<[path := Bytes body]> f) ;;;
      ret (String.length body, None)
  end.

(** The loop of [ioutil.TempFile]: a name that exists is tried again
    with the next suffix; any other outcome ends the loop. *)
Fixpoint tempfile_loop (attempts i : nat) (dir prefix : string) (last : error)
  : M (error + string) :=
  match attempts with
  | O => ret (inl last)
  | S attempts' =>
      let name :=
        filepath_Join [dir; prefix +:+ nextSuffix (tempfile_rand env i)] in
      let* f := get_fs in
      match (if decide (is_Some (f !! name)) then Some EEXIST
             else create_result env name) with
      | Some e =>
          if IsExist e then tempfile_loop attempts' (S i) dir prefix e
          else ret (inl e)
      | None => set_fs (<[name := Bytes ""]> f) ;;; ret (inr name)
      end
  end.

(** [ioutil.TempFile(dir, prefix)]: a new file opened with [O_EXCL]
    under a name made of [prefix] and a random suffix; the name of the
    file, or the error. *)
Definition ioutil_TempFile (dir prefix : string) : M (error + string) :=
  let dir := if decide (dir = "") then os_TempDir env else dir in
  tempfile_loop (100 * 100) 0 dir prefix EEXIST.

(** Modelled from the spec: [index.Create] of the index package, which
    is not among the sources.  [Create(path) -> handle]: opens a new,
    empty Index Shard; the handle is the path. *)
Definition index_Create (path : string) : M string :=
  emit (IndexCreate path) ;;;
  let* f := get_fs in
  set_fs (<[path := IndexData []]> f) ;;; ret path.

Definition add_doc (rel : string) (d : FileData) : FileData :=
  match d with
  | IndexData docs => IndexData (docs ++ [rel])
  | Bytes b => Bytes b
  end.

(** Modelled from the spec: [AddFile] of the index package, which is
    not among the sources.
    [handle.AddFile(diskPath, indexedRelativePath) -> error]: the
    document joins the shard unless the call reports failure. *)
Definition index_AddFile (index path rel : string) : M (option error) :=
  emit (AddFile index path rel) ;;;
  match addfile_result env path with
  | Some e => ret (Some e)
  | None =>
      let* f := get_fs in
      set_fs (alter (add_doc rel) index f) ;;; ret None
  end.

(** Modelled from the spec: [Flush] of the index package, which is not
    among the sources.  [handle.Flush()] finalizes the shard. *)
Definition index_Flush (index : string) : M unit := emit (Flush index).

Definition docs_of (f : gmap string FileData) (path : string) : list string :=
  match f !! path with
  | Some (IndexData docs) => docs
  | _ => []
  end.

(** Modelled from the spec: [index.ConcatN] of the index package, which
    is not among the sources.  [Merge(outputPath, ...inputPaths)]: the
    output holds the documents of all inputs; the inputs are read,
    nothing but the output is written. *)
Definition index_ConcatN (dst : string) (srcs : list string) : M unit :=
  emit (ConcatN dst srcs) ;;;
  let* f := get_fs in
  set_fs (<[dst := IndexData (concat (map (docs_of f) srcs))]> f).

(** [http.Error(w, msg, code)]. *)
Definition http_Error (msg : string) (code : nat) : Response :=
  mkResponse code (msg +:+ newline).

(** ** [importPackage]: [PUT /import/<package>/<file>] *)

Definition importPackage (r : Request) : M Response :=
  match slice_from (URL_Path r) (String.length "/import/") with
  | None => panic "slice bounds out of range"
  | Some path =>
      let pkg := filepath_Dir path in
      let filename := filepath_Base path in
      let* err := os_Mkdir (filepath_Join [tmpdir cfg; pkg]) in
      match (match err with
             | Some e => if IsExist e then None else Some e
             | None => None
             end) with
      | Some e => ret (http_Error (Error e) StatusInternalServerError)
      | None =>
          let* err := os_Create (filepath_Join [tmpdir cfg; path]) in
          match err with
          | Some e => ret (http_Error (Error e) StatusInternalServerError)
          | None =>
              let* '(written, err) :=
                io_Copy (filepath_Join [tmpdir cfg; path]) (Body r) in
              match err with
              | Some e => ret (http_Error (Error e) StatusInternalServerError)
              | None =>
                  log_Printf "Wrote %d bytes into %s\n"
                    [ArgInt written; ArgStr path] ;;;
                  let w := mkResponse StatusOK
                    ("thank you for sending file " +:+ filename +:+
                     " for package " +:+ pkg +:+ "!" +:+ newline) in
                  (if strings_HasSuffix filename ".dsc"
                   then send path else ret tt) ;;;
                  ret w
              end
          end
      end
  end.

(** ** [mergeToShard]: [POST /merge] *)

(** The loop that selects the index files among the listed names. *)
Definition select_index_files (names : list string) : list string :=
  fold_left
    (λ indexFiles name,
       if strings_HasSuffix name ".idx"
       then indexFiles ++ [filepath_Join [unpackedPath (flags cfg); name]]
       else indexFiles)
    names [].

Definition mergeToShard (r : Request) : M Response :=
  match os_Open (unpackedPath (flags cfg)) with
  | Some e => log_Fatal e
  | None =>
      match readdirnames_result env (unpackedPath (flags cfg)) with
      | inl e => log_Fatal e
      | inr names =>
          let indexFiles := select_index_files names in
          log_Printf "Got %d index files\n" [ArgInt (length indexFiles)] ;;;
          if decide (length indexFiles = 1) then ret (mkResponse StatusOK "")
          else
            let* tmp := ioutil_TempFile (unpackedPath (flags cfg)) "newshard" in
            match tmp with
            | inl e => log_Fatal e
            | inr tmpIndexPath =>
                let* profiling :=
                  (if decide (cpuProfile (flags cfg) ≠ "") then
                     let* err := os_Create (cpuProfile (flags cfg)) in
                     match err with
                     | Some e => log_Fatal e
                     | None =>
                         emit (StartCPUProfile (cpuProfile (flags cfg))) ;;;
                         ret true
                     end
                   else ret false) in
                index_ConcatN tmpIndexPath indexFiles ;;;
                log_Printf "merged in %v\n" [ArgDuration] ;;;
                log_Printf "merged into shard %s\n" [ArgStr tmpIndexPath] ;;;
                (if profiling : bool then emit StopCPUProfile else ret tt) ;;;
                ret (mkResponse StatusOK "")
            end
      end
  end.

(** ** [unpackAndIndex]: the worker *)

(** What the function passed to [filepath.Walk] returns: [nil] or
    [filepath.SkipDir]. *)
Inductive walk_error := WalkNil | SkipDir.

(** Lines 197 to 215 of the walk function: everything after the block
    on ignored names.  [cur] is the entry found at [path] on disk
    ([None] once it is removed). *)
Definition walkFn_index (index : string) (stripLen : nat)
    (path : string) (info : option FileInfo) (cur : option node)
  : M (walk_error * option node) :=
  match info with
  | None => ret (WalkNil, cur)
  | Some fi =>
      if negb (IsRegular fi) then ret (WalkNil, cur)
      else if negb (utf8_ValidString path) then
        log_Printf "Skipping due to invalid UTF-8: %s\n" [ArgStr path] ;;;
        ret (WalkNil, cur)
      else
        match slice_from path stripLen with
        | None => panic "slice bounds out of range"
        | Some rel =>
            let* err := index_AddFile index path rel in
            match err with
            | Some _ =>
                match os_Remove env path cur with
                | (Some e, _) =>
                    log_Fatalf "Could not remove file %q: %v\n"
                      [ArgStr path; ArgErr e]
                | (None, cur') => ret (WalkNil, cur')
                end
            | None => ret (WalkNil, cur)
            end
        end
  end.

(** The function literal passed to [filepath.Walk] (lines 178 to 216).
    [info.IsDir()] on a nil [info] is a nil dereference. *)
Definition walkFn (index : string) (stripLen : nat)
    (path : string) (info : option FileInfo) (err : option error)
    (cur : option node)
  : M (walk_error * option node) :=
  let '(_, filename) := filepath_Split path in
  if decide (filename ≠ "") then
    match info with
    | None => panic "invalid memory address or nil pointer dereference"
    | Some fi =>
        if IsDir fi && map_index (ignoredDirnames cfg) filename then
          match os_RemoveAll env path cur with
          | (Some e, _) =>
              log_Fatalf "Could not remove directory %q: %v\n"
                [ArgStr path; ArgErr e]
          | (None, cur') => ret (SkipDir, cur')
          end
        else if map_index (ignoredFilenames cfg) filename then
          match os_Remove env path cur with
          | (Some e, _) =>
              log_Fatalf "Could not remove file %q: %v\n"
                [ArgStr path; ArgErr e]
          | (None, cur') => ret (WalkNil, cur')
          end
        else walkFn_index index stripLen path info cur
    end
  else walkFn_index index stripLen path info cur.

(** The entry [name] of a directory after its visit: kept with what is
    left of it, or dropped when it was removed. *)
Definition keep_entry (name : string) (cur : option node)
    (rest : list (string * node)) : list (string * node) :=
  match cur with
  | Some n => (name, n) :: rest
  | None => rest
  end.

(** The loop of [walk] over the entries of the directory [path]:
    each is examined with [lstat]; one that cannot be examined is
    passed to the function with a nil [info], the others are walked
    by [walk_rec].  The result carries the entries that are left. *)
Definition visit
    (fn : string → option FileInfo → option error → option node →
          M (walk_error * option node))
    (walk_rec : string → node → M (walk_error * option node))
    (path : string)
  : list (string * node) → M (walk_error * list (string * node)) :=
  fix visit (es : list (string * node)) :=
    match es with
    | [] => ret (WalkNil, [])
    | (name, child) :: rest =>
        let filename := filepath_Join [path; name] in
        match lstat_result env filename with
        | Some e =>
            let* '(_, cur) := fn filename None (Some e) (Some child) in
            let* '(err, rest') := visit rest in
            ret (err, keep_entry name cur rest')
        | None =>
            let* '(err, cur) := walk_rec filename child in
            match err, IsDir (lstat_info child) with
            | SkipDir, false => ret (SkipDir, keep_entry name cur rest)
            | _, _ =>
                let* '(err, rest') := visit rest in
                ret (err, keep_entry name cur rest')
            end
        end
    end.

(** [walk] of [path/filepath], as in the Go releases the importer was
    written for: the function is called on the entry; a directory that
    it did not skip is then listed, and when the listing fails the
    function is called a second time, with the error; otherwise the
    entries are visited in order.  A [SkipDir] from a directory ends the
    visit of that directory only.  The result carries what is left of
    the entry.  ([n] is the entry that [lstat] found at [path], so
    [!info.IsDir()] is the case [File] of [n].) *)
Fixpoint walk (fn : string → option FileInfo → option error → option node →
                    M (walk_error * option node))
    (path : string) (n : node) : M (walk_error * option node) :=
  let info := lstat_info n in
  let* '(err, cur) := fn path (Some info) None (Some n) in
  match err with
  | SkipDir =>
      if IsDir info then ret (WalkNil, cur) else ret (SkipDir, cur)
  | WalkNil =>
      match n with
      | File _ => ret (WalkNil, cur)
      | Dir entries =>
          match (match cur with
                 | None => Some ENOENT
                 | Some _ => readdir_result env path
                 end) with
          | Some e => fn path (Some info) (Some e) cur
          | None =>
              let* '(err, entries') := visit fn (walk fn) path entries in
              ret (err, Some (Dir entries'))
          end
      end
  end.

Definition put_tree (root : string) (cur : option node) : M unit :=
  let* t := get_trees in
  set_trees (match cur with
             | Some n => <[root := n]> t
             | None => delete root t
             end).

(** [filepath.Walk]. *)
Definition filepath_Walk (root : string)
    (fn : string → option FileInfo → option error → option node →
          M (walk_error * option node)) : M walk_error :=
  let* t := get_trees in
  match t !! root with
  | None =>
      let* '(err, cur) := fn root None (Some ENOENT) None in
      put_tree root cur ;;; ret err
  | Some n =>
      match lstat_result env root with
      | Some e =>
          let* '(err, cur) := fn root None (Some e) (Some n) in
          put_tree root cur ;;; ret err
      | None =>
          let* '(err, cur) := walk fn root n in
          put_tree root cur ;;; ret err
      end
  end.

(** [exec.Command("dpkg-source", ...).Run()]: on success the unpacked
    tree is at [dest]. *)
Definition run_dpkg_source (dsc dest : string) : M (option error) :=
  emit (Exec ["dpkg-source"; "--no-copy"; "--no-check"; "-x"; dsc; dest]) ;;;
  match dpkg_source_result env dsc dest with
  | inl e => ret (Some e)
  | inr tree =>
      let* t := get_trees in
      set_trees (<[dest := tree]> t) ;;; ret None
  end.

(** One turn of the loop of [unpackAndIndex], for the path [dscPath]
    received from [indexQueue]. *)
Definition unpackAndIndex_body (dscPath : string) : M unit :=
  let pkg := filepath_Dir dscPath in
  log_Printf "Unpacking %s\n" [ArgStr pkg] ;;;
  let unpacked := filepath_Join [tmpdir cfg; pkg; pkg] in
  let* err := run_dpkg_source (filepath_Join [tmpdir cfg; dscPath]) unpacked in
  match err with
  | Some e =>
      log_Printf "Skipping package %s: %v\n" [ArgStr pkg; ArgErr e]
  | None =>
      let* index := index_Create (filepath_Join [tmpdir cfg; pkg +:+ ".idx"]) in
      let stripLen := String.length (filepath_Join [tmpdir cfg; pkg]) in
      filepath_Walk unpacked (walkFn index stripLen) ;;;
      index_Flush index
  end.

(** The worker on the jobs it receives, in the order it receives them.
    The loop itself never ends: with no job left the worker waits on
    the channel. *)
Fixpoint unpackAndIndex (jobs : list string) : M unit :=
  match jobs with
  | [] => ret tt
  | dscPath :: jobs' =>
      unpackAndIndex_body dscPath ;;; unpackAndIndex jobs'
  end.

End Importer.

(** ** [main]: the start of the process *)

(** [for _, entry := range strings.Split(list, ",") { m[entry] = true }] *)
Definition fill_set (list : string) (m : gmap string bool) : gmap string bool :=
  fold_left (λ m entry, <[entry := true]> m) (strings_Split_comma list) m.

(** [main] up to the start of the workers and of the server: the three
    sets are filled from the flags and the staging directory is
    created. *)
Definition main_init (env : Env) (fl : Flags) : M Config :=
  let dirnames := fill_set (ignoredDirnamesList fl) ∅ in
  let filenames := fill_set (ignoredFilenamesList fl) ∅ in
  let suffixes := fill_set (ignoredSuffixesList fl) ∅ in
  match tempdir_result env with
  | inl e => log_Fatal e
  | inr dir => ret (mkConfig fl dirnames filenames suffixes dir)
  end.

(** The default values of the flags. *)
Definition default_flags : Flags :=
  mkFlags ":21010" "/dcs-ssd/unpacked/" ""
    ".pc,po,.git"
    "NEWS,COPYING,LICENSE,CHANGES,Makefile.in,ltmain.sh,config.guess,config.sub,depcomp,aclocal.m4,libtool.m4,.gitignore"
    "conf,dic,cfg,man,xml,xsl,html,sgml,pod,po,txt,tex,rtf,docbook,symbols".

(** ** Runs of several requests *)

(** Merge requests served one after the other, each in the environment
    it finds. *)
Fixpoint serve_merges (cfg : Config) (runs : list (Env * Request)) : M unit :=
  match runs with
  | [] => ret tt
  | (env, r) :: rest => mergeToShard cfg env r ;;; serve_merges cfg rest
  end.

Definition is_ConcatN (e : Event) : bool :=
  match e with
  | ConcatN _ _ => true
  | _ => false
  end.

(** The first error that fails the upload of [path], if any. *)
Definition upload_error (cfg : Config) (env : Env) (path : string)
  : option error :=
  match mkdir_result env (filepath_Join [tmpdir cfg; filepath_Dir path]) with
  | Some e =>
      if IsExist e then
        match create_result env (filepath_Join [tmpdir cfg; path]) with
        | Some e => Some e
        | None => snd <$> copy_result env (filepath_Join [tmpdir cfg; path])
        end
      else Some e
  | None =>
      match create_result env (filepath_Join [tmpdir cfg; path]) with
      | Some e => Some e
      | None => snd <$> copy_result env (filepath_Join [tmpdir cfg; path])
      end
  end.

(** ** The entries of a tree *)

(** [entry_at root t p n]: walking the tree [t] found at [root] meets the
    entry [n] under the path [p]. *)
Inductive entry_at : string → node → string → node → Prop :=
| entry_here root t : entry_at root t root t
| entry_below root entries name child p n :
    (name, child) ∈ entries →
    entry_at (filepath_Join [root; name]) child p n →
    entry_at root (Dir entries) p n.

(** ** Sample environments *)

(** A system on which every call succeeds, [dir] lists [names], the
    unpack tool produces [tree] and the random suffixes count up from
    [seed]. *)
Definition quiet_env (names : list string) (tree : node) (seed : N) : Env :=
  mkEnv (λ _, None) (λ _, None) (λ _, None) (λ _, None) (λ _, inr names)
    "/tmp" (λ i, (seed + N.of_nat i)%N) (inr "/tmp/dcs-importer1")
    (λ _ _, inr tree) (λ _, None) (λ _, None) (λ _, None) (λ _, None)
    (λ _, None).

Definition empty_world : World := mkWorld ∅ ∅ [] [].

(** The configuration [main] builds from the default flags. *)
Definition default_config : Config :=
  mkConfig default_flags
    (fill_set (ignoredDirnamesList default_flags) ∅)
    (fill_set (ignoredFilenamesList default_flags) ∅)
    (fill_set (ignoredSuffixesList default_flags) ∅)
    "/tmp/dcs-importer1".

Definition merge_request : Request := mkRequest "/merge" "".

(** ** What the walk leaves in the trace and on disk *)

(** The events of the walk function on the index [index]: the note on a
    skipped path, which is not valid UTF-8, and the calls of [AddFile],
    whose paths are. *)
Definition walk_event (index : string) (ev : Event) : Prop :=
  match ev with
  | Printf format args =>
      format = "Skipping due to invalid UTF-8: %s\n" ∧
      ∃ p, args = [ArgStr p] ∧ utf8_ValidString p = false
  | AddFile i p rel => i = index ∧ utf8_ValidString p = true
  | _ => False
  end.

(** The message [format] about [p] and [e] reports a removal that
    failed. *)
Definition deletion_failed (env : Env) (format p : string) (e : error) : Prop :=
  (format = "Could not remove directory %q: %v\n" ∧
   removeall_result env p = Some e) ∨
  (format = "Could not remove file %q: %v\n" ∧
   ∃ cur, (os_Remove env p cur).1 = Some e).

Definition walk_returns (index : string) (w w' : World) : Prop :=
  ∃ evs, trace w' = trace w ++ evs ∧ Forall (walk_event index) evs ∧
         trees w' = trees w ∧ indexQueue w' = indexQueue w ∧
         ∀ p, p ≠ index → fs w' !! p = fs w !! p.

Definition walk_exits (env : Env) (index : string) (w w' : World) : Prop :=
  ∃ evs format p e,
    trace w' = trace w ++ evs ++ [Fatal format [ArgStr p; ArgErr e]] ∧
    Forall (walk_event index) evs ∧ deletion_failed env format p e.

Definition walk_panics (index : string) (w w' : World) : Prop :=
  ∃ evs, trace w' = trace w ++ evs ∧ Forall (walk_event index) evs.

(** The entry [n] found under [p] after the walk is as the walk means to
    leave it, given the trace [tr]: its name is on neither list of
    ignored names that applies to it, and if it is a regular file then
    either its path is not valid UTF-8 or [AddFile] was called on it and
    reported no error. *)
Definition entry_ok (cfg : Config) (env : Env) (index : string)
    (tr : list Event) (p : string) (n : node) : Prop :=
  let filename := (filepath_Split p).2 in
  (filename ≠ "" →
   map_index (ignoredFilenames cfg) filename = false ∧
   (IsDir (lstat_info n) = true →
    map_index (ignoredDirnames cfg) filename = false)) ∧
  (IsRegular (lstat_info n) = true →
   utf8_ValidString p = false ∨
   (addfile_result env p = None ∧ ∃ rel, AddFile index p rel ∈ tr)).

(** [cfg] with another set of ignored suffixes. *)
Definition with_suffixes (cfg : Config) (suffixes : gmap string bool)
  : Config :=
  mkConfig (flags cfg) (ignoredDirnames cfg) (ignoredFilenames cfg)
    suffixes (tmpdir cfg).

(** The events of a worker: its notes, the calls of the unpack tool and
    of the index package, with [AddFile] only on paths that are valid
    UTF-8. *)
Definition worker_event (ev : Event) : Prop :=
  match ev with
  | Printf _ _ | Exec _ | IndexCreate _ | Flush _ => True
  | AddFile _ p _ => utf8_ValidString p = true
  | _ => False
  end.

Definition job_returns (w w' : World) : Prop :=
  ∃ evs, trace w' = trace w ++ evs ∧ Forall worker_event evs.

Definition job_exits (env : Env) (w w' : World) : Prop :=
  ∃ evs format p e,
    trace w' = trace w ++ evs ++ [Fatal format [ArgStr p; ArgErr e]] ∧
    Forall worker_event evs ∧ deletion_failed env format p e.


(** A system on which no file can be created, and on which the shard
    directory lists [names]. *)
Definition read_only_env (names : list string) : Env :=
  mkEnv (λ _, None) (λ _, Some (mkError false "read-only file system"))
    (λ _, None) (λ _, None)
    (λ _, inr names) "/tmp" (λ i, N.of_nat i) (inr "/tmp/dcs-importer1")
    (λ _ _, inr (Dir [])) (λ _, None) (λ _, None) (λ _, None) (λ _, None)
    (λ _, None).

(** A system on which the unpack tool fails. *)
Definition broken_package_env : Env :=
  mkEnv (λ _, None) (λ _, None) (λ _, None) (λ _, None)
    (λ _, inr []) "/tmp" (λ i, N.of_nat i) (inr "/tmp/dcs-importer1")
    (λ _ _, inl (mkError false "exit status 2"))
    (λ _, None) (λ _, None) (λ _, None) (λ _, None) (λ _, None).

(** A file name that is not valid UTF-8 (from the package
    xblast-tnt-levels). *)
Definition latin1_name : string := "reconstruct" +:+ String "238" "on2.xal".

(** A small source tree: a version-control directory, a licence file, a
    source file, a symbolic link and a file with a Latin-1 name. *)
Definition sample_tree : node :=
  Dir [(".git", Dir [("config", File true)]);
       ("COPYING", File true);
       ("main.c", File true);
       ("link", File false);
       (latin1_name, File true)].

Definition regular_file_info : FileInfo := mkFileInfo false true.

(** A system that unpacks [sample_tree] and on which every other call
    succeeds. *)
Definition sample_env : Env := quiet_env [] sample_tree 1.

(** A system on which [lstat] fails for one path. *)
Definition stat_failure_env (path : string) : Env :=
  mkEnv (λ _, None) (λ _, None) (λ _, None) (λ _, None)
    (λ _, inr []) "/tmp" (λ i, N.of_nat i) (inr "/tmp/dcs-importer1")
    (λ _ _, inr sample_tree)
    (λ p, if decide (p = path) then Some ENOENT else None)
    (λ _, None) (λ _, None) (λ _, None) (λ _, None).

(** The name of the entry [n] at [path] is on neither list of ignored
    names that applies to it. *)
Definition name_ok (cfg : Config) (path : string) (n : node) : Prop :=
  (filepath_Split path).2 ≠ "" →
  map_index (ignoredFilenames cfg) (filepath_Split path).2 = false ∧
  (IsDir (lstat_info n) = true →
   map_index (ignoredDirnames cfg) (filepath_Split path).2 = false).

(** Every entry of what is left at [path] is as the walk means to leave
    it. *)
Definition tree_ok (cfg : Config) (env : Env) (index : string)
    (tr : list Event) (path : string) (cur : option node) : Prop :=
  ∀ t, cur = Some t → ∀ p n, entry_at path t p n →
       entry_ok cfg env index tr p n.

(** What the walk of the entry [n] at [path] establishes when it
    returns. *)
Definition walk_post (cfg : Config) (env : Env) (index : string)
    (path : string) (n : node) (w w' : World)
    (r : walk_error * option node) : Prop :=
  walk_returns index w w' ∧
  (r.1 = SkipDir → IsDir (lstat_info n) = true) ∧
  tree_ok cfg env index (trace w') path r.2.

(** The events of the profiler around the merge, and the file it
    creates, when [-cpuprofile] is set. *)
Definition profile_start (cfg : Config) : list Event :=
  if decide (cpuProfile (flags cfg) ≠ "")
  then [StartCPUProfile (cpuProfile (flags cfg))] else [].

Definition profile_stop (cfg : Config) : list Event :=
  if decide (cpuProfile (flags cfg) ≠ "") then [StopCPUProfile] else [].

Definition profile_file (cfg : Config) (f : gmap string FileData)
  : gmap string FileData :=
  if decide (cpuProfile (flags cfg) ≠ "")
  then <[cpuProfile (flags cfg) := Bytes ""]> f else f.


(** What a merge request may add to the trace: its [ConcatN] calls write
    to a temporary name of the shard directory and read names of that
    directory that end in [.idx]. *)
Definition merge_event (cfg : Config) (ev : Event) : Prop :=
  match ev with
  | ConcatN dst srcs =>
      (∃ r0, dst = filepath_Join
                     [unpackedPath (flags cfg); "newshard" +:+ nextSuffix r0]) ∧
      (∀ p, p ∈ srcs →
            ∃ name, strings_HasSuffix name ".idx" = true ∧
                    p = filepath_Join [unpackedPath (flags cfg); name])
  | _ => True
  end.


(** ** Tools for the proofs *)

(** [wp m w Q E P]: run from [w], [m] returns in a world and with a
    value that satisfy [Q], or exits in a world that satisfies [E], or
    panics in a world that satisfies [P]. *)
Definition wp {A} (m : M A) (w : World)
    (Q : World → A → Prop) (E P : World → Prop) : Prop :=
  match m w with
  | (w', Returned a) => Q w' a
  | (w', Exited _) => E w'
  | (w', Panicked _) => P w'
  end.

(** Induction on trees: a property of the entries of a directory passes
    to the directory. *)
Fixpoint node_induction (P : node → Prop)
    (Hfile : ∀ regular, P (File regular))
    (Hdir : ∀ entries, Forall (λ e, P e.2) entries → P (Dir entries))
    (n : node) : P n :=
  match n with
  | File regular => Hfile regular
  | Dir entries =>
      Hdir entries
        ((fix go (es : list (string * node)) : Forall (λ e, P e.2) es :=
            match es with
            | [] => @List.Forall_nil _ (λ e, P e.2)
            | e :: es' =>
                @List.Forall_cons _ (λ e, P e.2) e es'
                  (node_induction P Hfile Hdir e.2) (go es')
            end) entries)
  end.



(** A system that unpacks [tree] and on which the directory [path]
    cannot be listed. *)
Definition unlistable_env (tree : node) (path : string) : Env :=
  mkEnv (λ _, None) (λ _, None) (λ _, None) (λ _, None)
    (λ _, inr []) "/tmp" (λ i, N.of_nat i) (inr "/tmp/dcs-importer1")
    (λ _ _, inr tree) (λ _, None)
    (λ p, if decide (p = path) then Some (mkError false "permission denied")
          else None)
    (λ _, None) (λ _, None) (λ _, None).

(** ** Package [varz]: the counters *)

(** Arithmetic on [uint64] wraps around. *)
Definition uint64 (z : Z) : Z := (z mod 2 ^ 64)%Z.

(** The struct [counter]; its lock orders concurrent updates and holds
    no data. *)
Record counter := mkCounter { value : Z }.

(** [c.value += 1]. *)
Definition counter_Add (c : counter) : counter :=
  mkCounter (uint64 (value c + 1)).

(** [c.value -= 1]. *)
Definition counter_Subtract (c : counter) : counter :=
  mkCounter (uint64 (value c - 1)).

Definition counter_Value (c : counter) : Z := value c.

(** [Increment]: the counter of [key] goes up by one; a key that has no
    counter gets one that starts at 1. *)
Definition varz_Increment (key : string) (counters : gmap string counter)
  : gmap string counter :=
  match counters !! key with
  | Some c => <[key := counter_Add c]> counters
  | None => <[key := mkCounter 1]> counters
  end.

(** [Decrement]: the counter of [key] goes down by one; a key that has
    no counter gets one that starts at 1. *)
Definition varz_Decrement (key : string) (counters : gmap string counter)
  : gmap string counter :=
  match counters !! key with
  | Some c => <[key := counter_Subtract c]> counters
  | None => <[key := mkCounter 1]> counters
  end.

(** [Set]: the counter of [key] takes [value]. *)
Definition varz_Set (key : string) (v : Z) (counters : gmap string counter)
  : gmap string counter :=
  match counters !! key with
  | Some c => <[key := mkCounter v]> counters
  | None => <[key := mkCounter v]> counters
  end.

(** The calls a program makes on the counters. *)
Inductive varz_call :=
| CallIncrement (key : string)
| CallDecrement (key : string)
| CallSet (key : string) (v : Z).

Definition varz_run (c : varz_call) (counters : gmap string counter)
  : gmap string counter :=
  match c with
  | CallIncrement key => varz_Increment key counters
  | CallDecrement key => varz_Decrement key counters
  | CallSet key v => varz_Set key v counters
  end.

(** The calls of a program in order, the first call first. *)
Definition varz_run_all (calls : list varz_call)
    (counters : gmap string counter) : gmap string counter :=
  fold_left (λ m c, varz_run c m) calls counters.

Definition call_key (c : varz_call) : string :=
  match c with
  | CallIncrement key | CallDecrement key | CallSet key _ => key
  end.

(** The argument of [Set] is a [uint64]. *)
Definition call_ok (c : varz_call) : Prop :=
  match c with
  | CallSet _ v => (0 ≤ v < 2 ^ 64)%Z
  | _ => True
  end.

Definition counters_in_range (counters : gmap string counter) : Prop :=
  ∀ key c, counters !! key = Some c → (0 ≤ value c < 2 ^ 64)%Z.

(** ** What a worker indexes *)

(** The last element of [path] is empty or is not a key that [m] maps
    to [true]. *)
Definition not_ignored (m : gmap string bool) (path : string) : Prop :=
  (filepath_Split path).2 = "" ∨
  map_index m (filepath_Split path).2 = false.

(** [walked cfg root t p n]: the entry [n] is found under the path [p]
    in the tree [t] at [root], below directories whose names are on
    neither list of ignored names. *)
Inductive walked (cfg : Config) : string → node → string → node → Prop :=
| walked_here root t : walked cfg root t root t
| walked_below root entries name child p n :
    not_ignored (ignoredDirnames cfg) root →
    not_ignored (ignoredFilenames cfg) root →
    (name, child) ∈ entries →
    walked cfg (filepath_Join [root; name]) child p n →
    walked cfg root (Dir entries) p n.

(** A call of [AddFile] made by the walk function on [path] with
    [info]. *)
Definition call_event (cfg : Config) (index : string) (stripLen : nat)
    (path : string) (info : option FileInfo) (ev : Event) : Prop :=
  match ev with
  | AddFile i p rel =>
      i = index ∧ p = path ∧
      (∃ fi, info = Some fi ∧ IsRegular fi = true) ∧
      not_ignored (ignoredFilenames cfg) path ∧
      utf8_ValidString path = true ∧
      slice_from path stripLen = Some rel
  | _ => True
  end.

Definition call_rel (cfg : Config) (index : string) (stripLen : nat)
    (path : string) (info : option FileInfo) (w w' : World) : Prop :=
  ∃ evs, trace w' = trace w ++ evs ∧
         Forall (call_event cfg index stripLen path info) evs.

(** A call of [AddFile] during the walk of the tree [t] at [root] is on
    a regular file of the tree that the walk reaches, whose name is not
    ignored and whose path is valid UTF-8; the name given to the
    document is the path without its first [stripLen] bytes. *)
Definition indexed_soundly (cfg : Config) (index : string) (stripLen : nat)
    (root : string) (t : node) (ev : Event) : Prop :=
  match ev with
  | AddFile i p rel =>
      i = index ∧ walked cfg root t p (File true) ∧
      not_ignored (ignoredFilenames cfg) p ∧
      utf8_ValidString p = true ∧
      slice_from p stripLen = Some rel
  | _ => True
  end.

Definition sound_rel (cfg : Config) (index : string) (stripLen : nat)
    (root : string) (t : node) (w w' : World) : Prop :=
  ∃ evs, trace w' = trace w ++ evs ∧
         Forall (indexed_soundly cfg index stripLen root t) evs.

(** The documents of the calls of [AddFile] that reported no error, in
    the order of the calls. *)
Definition accepted (env : Env) (evs : list Event) : list string :=
  omap (λ ev, match ev with
              | AddFile _ p rel =>
                  match addfile_result env p with
                  | None => Some rel
                  | Some _ => None
                  end
              | _ => None
              end) evs.

(** What the walk does to the files, to the unpacked trees and to the
    queue: on an index that exists the accepted documents are added,
    and nothing else changes. *)
Definition store_rel (env : Env) (index : string) (w w' : World) : Prop :=
  ∃ evs, trace w' = trace w ++ evs ∧
         (∀ docs, fs w !! index = Some (IndexData docs) →
                  fs w' !! index = Some (IndexData (docs ++ accepted env evs))) ∧
         trees w' = trees w ∧ indexQueue w' = indexQueue w ∧
         ∀ p, p ≠ index → fs w' !! p = fs w !! p.

(** The first events of a job whose package unpacks. *)
Definition job_start (cfg : Config) (dscPath : string) : list Event :=
  [Printf "Unpacking %s\n" [ArgStr (filepath_Dir dscPath)];
   Exec ["dpkg-source"; "--no-copy"; "--no-check"; "-x";
         filepath_Join [tmpdir cfg; dscPath];
         filepath_Join [tmpdir cfg; filepath_Dir dscPath;
                        filepath_Dir dscPath]];
   IndexCreate (filepath_Join [tmpdir cfg; filepath_Dir dscPath +:+ ".idx"])].

(** A system that unpacks [sample_tree] and on which no file can be
    removed. *)
Definition undeletable_env : Env :=
  mkEnv (λ _, None) (λ _, None) (λ _, None) (λ _, None)
    (λ _, inr []) "/tmp" (λ i, N.of_nat i) (inr "/tmp/dcs-importer1")
    (λ _ _, inr sample_tree) (λ _, None) (λ _, None)
    (λ _, Some (mkError false "operation not permitted")) (λ _, None)
    (λ _, None).


(** A configuration in which nothing is ignored, and the one [main]
    builds when the three flags are empty. *)
Definition bare_config : Config :=
  mkConfig (mkFlags ":21010" "/dcs-ssd/unpacked/" "" "" "" "")
    ∅ ∅ ∅ "/tmp/dcs-importer1".

Definition empty_flags_config : Config :=
  mkConfig (mkFlags ":21010" "/dcs-ssd/unpacked/" "" "" "" "")
    (fill_set "" ∅) (fill_set "" ∅) (fill_set "" ∅) "/tmp/dcs-importer1".

(** ** Runs of several uploads *)

(** Upload requests served one after the other, each in the environment
    it finds; the responses in the order of the requests. *)
Fixpoint serve_imports (cfg : Config) (runs : list (Env * Request))
  : M (list Response) :=
  match runs with
  | [] => ret []
  | (env, r) :: rest =>
      let* resp := importPackage cfg env r in
      let* resps := serve_imports cfg rest in
      ret (resp :: resps)
  end.

(** What one upload sends on [indexQueue]. *)
Definition queued_by (cfg : Config) (run : Env * Request) : list string :=
  match slice_from (URL_Path run.2) (String.length "/import/") with
  | Some path =>
      match upload_error cfg run.1 path with
      | None =>
          if strings_HasSuffix (filepath_Base path) ".dsc" then [path] else []
      | Some _ => []
      end
  | None => []
  end.

(** A system on which the copy of an upload stops after [n] bytes. *)
Definition short_copy_env (n : nat) : Env :=
  mkEnv (λ _, None) (λ _, None)
    (λ _, Some (n, mkError false "unexpected EOF")) (λ _, None)
    (λ _, inr []) "/tmp" (λ i, N.of_nat i) (inr "/tmp/dcs-importer1")
    (λ _ _, inr (Dir [])) (λ _, None) (λ _, None) (λ _, None) (λ _, None)
    (λ _, None).

(** ** What merges leave on disk *)

(** The outputs of the calls of [ConcatN] in a trace, in order. *)
Definition concat_dsts (tr : list Event) : list string :=
  omap (λ ev, match ev with
              | ConcatN dst _ => Some dst
              | _ => None
              end) tr.

(** From [w] to [w'] no file went away, and no file but the profile
    changed. *)
Definition keeps (cfg : Config) (w w' : World) : Prop :=
  trees w' = trees w ∧ indexQueue w' = indexQueue w ∧
  ∀ p d, fs w !! p = Some d →
         fs w' !! p = Some d ∨
         (p = cpuProfile (flags cfg) ∧ cpuProfile (flags cfg) ≠ "" ∧
          fs w' !! p = Some (Bytes "")).

(** ** Package [common] of [dcs-web]: the template function [eq] *)

Section TemplateEq.
(** The floating-point numbers with Go's [==] on them, and the values of
    every other type with [reflect.DeepEqual] on them. *)
Context {float32 float64 other : Type}.
Context (float32_eq : float32 → float32 → bool).
Context (float64_eq : float64 → float64 → bool).
Context (DeepEqual : other → other → bool).

(** An [interface{}] value: its dynamic type and its value.  [byte] is
    [uint8]. *)
Inductive iface :=
| IString (s : string)
| IInt (n : Z)
| IInt64 (n : Z)
| IByte (n : Z)
| IFloat32 (f : float32)
| IFloat64 (f : float64)
| IOther (o : other).

(** [x == y] on interface values, for [x] of one of the types of the
    [case]: equal dynamic types and equal values. *)
Definition iface_eq (x y : iface) : bool :=
  match x, y with
  | IString a, IString b => bool_decide (a = b)
  | IInt a, IInt b => bool_decide (a = b)
  | IInt64 a, IInt64 b => bool_decide (a = b)
  | IByte a, IByte b => bool_decide (a = b)
  | IFloat32 a, IFloat32 b => float32_eq a b
  | IFloat64 a, IFloat64 b => float64_eq a b
  | _, _ => false
  end.

(** [reflect.DeepEqual(x, y)] for [x] of another type: values of
    different types are never deeply equal. *)
Definition reflect_DeepEqual (x : other) (y : iface) : bool :=
  match y with
  | IOther o => DeepEqual x o
  | _ => false
  end.

(** The function [eq] that [LoadTemplates] gives to the templates. *)
Definition template_eq (args : list iface) : bool :=
  match args with
  | [] => false
  | x :: rest =>
      match x with
      | IOther o => existsb (reflect_DeepEqual o) rest
      | _ => existsb (iface_eq x) rest
      end
  end.

(** The types on which [==] is the equality of values. *)
Definition exact_type (x : iface) : bool :=
  match x with
  | IString _ | IInt _ | IInt64 _ | IByte _ => true
  | _ => false
  end.
End TemplateEq.

(** * Properties *)

(** ** Byte strings and paths *)

Lemma app_String c s t : String c s +:+ t = String c (s +:+ t).
Proof. reflexivity. Qed.

Lemma app_empty_r s : s +:+ "" = s.
Proof. induction s as [|c s IH]; [done|]. by rewrite app_String, IH. Qed.

Lemma app_assoc_string a b c : (a +:+ b) +:+ c = a +:+ b +:+ c.
Proof. induction a as [|x a IH]; [done|]. by rewrite !app_String, IH. Qed.

Lemma app_eq_empty a b : a +:+ b = "" → a = "" ∧ b = "".
Proof. destruct a; [done|]. rewrite app_String. discriminate. Qed.

Lemma take_drop_string n s : string_take n s +:+ string_drop n s = s.
Proof.
  revert s. induction n as [|n IH]; intros [|c s]; simpl; try done.
  by rewrite app_String, IH.
Qed.

Lemma last_byte_String c s :
  s ≠ "" → last_byte (String c s) = last_byte s.
Proof. by destruct s. Qed.

Lemma last_byte_None s : last_byte s = None → s = "".
Proof.
  induction s as [|c s IH]; [done|]. destruct s as [|d s]; [done|].
  intros H. rewrite last_byte_String in H by done. by apply IH in H.
Qed.

Lemma last_byte_app p t : t ≠ "" → last_byte (p +:+ t) = last_byte t.
Proof.
  intros Ht. induction p as [|c p IH]; [done|].
  rewrite app_String, last_byte_String; [done|].
  intros [_ ?]%app_eq_empty. done.
Qed.

Lemma strings_HasSuffix_app s suffix :
  strings_HasSuffix s suffix = true → ∃ p, s = p +:+ suffix.
Proof.
  unfold strings_HasSuffix. intros [_ Hd%bool_decide_eq_true]%andb_true_iff.
  exists (string_take (String.length s - String.length suffix) s).
  pose proof (take_drop_string (String.length s - String.length suffix) s) as Htd.
  by rewrite Hd in Htd.
Qed.

Lemma strings_HasSuffix_last_byte s suffix c :
  strings_HasSuffix s suffix = true → last_byte suffix = Some c →
  last_byte s = Some c.
Proof.
  intros [p ->]%strings_HasSuffix_app Hc. rewrite last_byte_app; [done|].
  by intros ->.
Qed.

(** The pieces of [split_on] end with a piece that carries the last byte
    of the string, when that byte is not the separator. *)
Lemma split_on_last sep s c :
  last_byte s = Some c → c ≠ sep →
  ∃ init piece, split_on sep s = init ++ [piece] ∧ last_byte piece = Some c.
Proof.
  induction s as [|x s IH]; [done|]. intros Hl Hc.
  destruct s as [|y s].
  - simpl in Hl. injection Hl as ->. simpl. rewrite decide_False by done.
    by exists [], (String c "").
  - rewrite last_byte_String in Hl by done.
    destruct (IH Hl Hc) as (init & piece & Heq & Hp).
    change (split_on sep (String x (String y s))) with
      (if decide (x = sep) then EmptyString :: split_on sep (String y s)
       else match split_on sep (String y s) with
            | [] => [String x EmptyString]
            | z :: zs => String x z :: zs
            end).
    rewrite Heq. destruct (decide (x = sep)).
    + by exists ("" :: init), piece.
    + destruct init as [|i init]; simpl.
      * exists [], (String x piece). split; [done|].
        rewrite last_byte_String; [done|]. by intros ->.
      * by exists (String x i :: init), piece.
Qed.

Lemma strings_Join_cons x l sep :
  l ≠ [] → strings_Join (x :: l) sep = x +:+ sep +:+ strings_Join l sep.
Proof. by destruct l. Qed.

Lemma strings_Join_snoc_last_byte l piece sep c :
  last_byte piece = Some c → last_byte (strings_Join (l ++ [piece]) sep) = Some c.
Proof.
  intros Hp. induction l as [|x l IH]; [done|].
  rewrite <- app_comm_cons, strings_Join_cons by (by destruct l).
  rewrite !last_byte_app; [done| |].
  - intros Heq. by rewrite Heq in IH.
  - intros [_ Heq]%app_eq_empty. by rewrite Heq in IH.
Qed.

(** [filepath.Clean] keeps the last byte of a path that ends neither in
    a slash nor in a dot. *)
Lemma filepath_Clean_last_byte path c :
  last_byte path = Some c → c ≠ "/"%char → c ≠ "."%char →
  last_byte (filepath_Clean path) = Some c.
Proof.
  intros Hl Hs Hd. unfold filepath_Clean.
  destruct (split_on_last "/" path c Hl Hs) as (init & piece & -> & Hp).
  rewrite fold_left_app. simpl.
  assert (clean_step (is_rooted path)
            (fold_left (clean_step (is_rooted path)) init []) piece
          = piece :: fold_left (clean_step (is_rooted path)) init []) as ->.
  { unfold clean_step.
    rewrite !decide_False; [done|intros ->..]; simpl in Hp; congruence. }
  cbn [rev].
  set (kept := rev _).
  pose proof (strings_Join_snoc_last_byte kept piece "/" c Hp) as HJ.
  assert (strings_Join (kept ++ [piece]) "/" ≠ "") as Hne
    by (intros Heq; by rewrite Heq in HJ).
  rewrite decide_False.
  - by rewrite last_byte_app.
  - by intros [_ ?]%app_eq_empty.
Qed.

(** [filepath.Join(dir, name)] ends as [name] does. *)
Lemma filepath_Join_last_byte dir name c :
  last_byte name = Some c → c ≠ "/"%char → c ≠ "."%char →
  last_byte (filepath_Join [dir; name]) = Some c.
Proof.
  intros Hl Hs Hd. assert (name ≠ "") by (by intros ->).
  simpl. destruct (decide (dir = "")).
  - rewrite decide_False by done. by apply filepath_Clean_last_byte.
  - apply filepath_Clean_last_byte; [|done..].
    rewrite !last_byte_app; [done|done|].
    by intros [_ ?]%app_eq_empty.
Qed.

Lemma decimal_digits_last_byte k n acc :
  last_byte (decimal_digits (S k) n acc) =
  match last_byte acc with
  | Some c => Some c
  | None => Some (digit_char (n mod 10)%N)
  end.
Proof.
  revert n acc. induction k as [|k IH]; intros n acc.
  - change (decimal_digits 1 n acc) with (String (digit_char (n mod 10)%N) acc).
    destruct acc as [|a acc]; [done|]. rewrite last_byte_String by done.
    destruct (last_byte (String a acc)) eqn:E; [done|].
    by apply last_byte_None in E.
  - change (decimal_digits (S (S k)) n acc) with
      (decimal_digits (S k) (n / 10)%N (String (digit_char (n mod 10)%N) acc)).
    rewrite IH. destruct acc as [|a acc]; [done|].
    rewrite last_byte_String by done.
    destruct (last_byte (String a acc)) eqn:E; [done|].
    by apply last_byte_None in E.
Qed.

Lemma digit_char_is_digit d : (d < 10)%N → byte_in 48 57 (digit_char d) = true.
Proof.
  intros Hd.
  assert (d = 0 ∨ d = 1 ∨ d = 2 ∨ d = 3 ∨ d = 4 ∨ d = 5 ∨ d = 6 ∨ d = 7 ∨
          d = 8 ∨ d = 9)%N as Hc by lia.
  repeat (destruct Hc as [->|Hc]; [reflexivity|]). by subst.
Qed.

(** The name of a temporary file ends in a decimal digit. *)
Lemma tempfile_name_last_byte dir prefix r :
  ∃ c, last_byte (filepath_Join [dir; prefix +:+ nextSuffix r]) = Some c ∧
       byte_in 48 57 c = true.
Proof.
  exists (digit_char (r mod 10)%N).
  assert (Hc : byte_in 48 57 (digit_char (r mod 10)%N) = true).
  { apply digit_char_is_digit. by apply N.mod_lt. }
  split; [|done].
  apply filepath_Join_last_byte.
  - rewrite last_byte_app.
    + unfold nextSuffix. by rewrite decimal_digits_last_byte.
    + unfold nextSuffix. intros Heq.
      pose proof (decimal_digits_last_byte 8 r "") as Hl.
      by rewrite Heq in Hl.
  - intros Heq. by rewrite Heq in Hc.
  - intros Heq. by rewrite Heq in Hc.
Qed.

(** No temporary file has a name with the suffix of the index files. *)
Lemma tempfile_name_not_idx dir prefix r :
  strings_HasSuffix (filepath_Join [dir; prefix +:+ nextSuffix r]) ".idx" = false.
Proof.
  destruct (strings_HasSuffix _ _) eqn:E; [|done].
  apply (strings_HasSuffix_last_byte _ _ "x"%char) in E; [|done].
  destruct (tempfile_name_last_byte dir prefix r) as (c & Hc & Hin).
  rewrite Hc in E. injection E as ->. done.
Qed.

(** A name with the suffix [.idx] keeps it when joined to a directory. *)
Lemma index_file_last_byte dir name :
  strings_HasSuffix name ".idx" = true →
  last_byte (filepath_Join [dir; name]) = Some "x"%char.
Proof.
  intros H. apply filepath_Join_last_byte; [|done..].
  by apply (strings_HasSuffix_last_byte _ ".idx").
Qed.

(** ** Reasoning about the monad *)

Lemma wp_ret {A} (a : A) w (Q : World → A → Prop) E P :
  Q w a → wp (ret a) w Q E P.
Proof. done. Qed.

Lemma wp_bind {A B} (m : M A) (k : A → M B) w Q E P :
  wp m w (λ w' a, wp (k a) w' Q E P) E P → wp (bind m k) w Q E P.
Proof. unfold wp, bind. by destruct (m w) as [w' [a|c|msg]]. Qed.

Lemma wp_mono {A} (m : M A) w (Q Q' : World → A → Prop)
    (E E' P P' : World → Prop) :
  wp m w Q E P → (∀ w' a, Q w' a → Q' w' a) →
  (∀ w', E w' → E' w') → (∀ w', P w' → P' w') →
  wp m w Q' E' P'.
Proof. unfold wp. destruct (m w) as [w' [a|c|msg]]; auto. Qed.

Lemma wp_returned {A} (m : M A) w w' a Q E P :
  wp m w Q E P → m w = (w', Returned a) → Q w' a.
Proof. unfold wp. intros H Heq. by rewrite Heq in H. Qed.


Lemma wp_panicked {A} (m : M A) w w' msg Q E P :
  wp m w Q E P → m w = (w', Panicked msg) → P w'.
Proof. unfold wp. intros H Heq. by rewrite Heq in H. Qed.


(** ** The merge handler *)

Lemma select_index_files_go cfg names acc :
  fold_left
    (λ indexFiles name,
       if strings_HasSuffix name ".idx"
       then indexFiles ++ [filepath_Join [unpackedPath (flags cfg); name]]
       else indexFiles) names acc
  = acc ++ map (λ name, filepath_Join [unpackedPath (flags cfg); name])
             (filter (λ name, strings_HasSuffix name ".idx" = true) names).
Proof.
  revert acc. induction names as [|name names IH]; intros acc; simpl.
  - by rewrite app_nil_r.
  - rewrite IH, filter_cons. simpl.
    destruct (decide (strings_HasSuffix name ".idx" = true)) as [E|E].
    + rewrite E. by rewrite <- app_assoc.
    + apply not_true_is_false in E. by rewrite E.
Qed.

(** The scan selects the listed names that end in [.idx], in order. *)
Lemma select_index_files_spec cfg names :
  select_index_files cfg names =
  map (λ name, filepath_Join [unpackedPath (flags cfg); name])
      (filter (λ name, strings_HasSuffix name ".idx" = true) names).
Proof. unfold select_index_files. by rewrite select_index_files_go. Qed.

Lemma select_index_files_elem cfg names p :
  p ∈ select_index_files cfg names →
  ∃ name, name ∈ names ∧ strings_HasSuffix name ".idx" = true ∧
          p = filepath_Join [unpackedPath (flags cfg); name].
Proof.
  rewrite select_index_files_spec.
  intros (name & -> & [Hs Hin]%list_elem_of_filter)%list_elem_of_fmap.
  eauto.
Qed.



(** [ioutil.TempFile] returns: with the name of a file that did not
    exist and is now empty, or with an error and nothing changed. *)
Lemma tempfile_loop_spec env attempts i dir prefix last w :
  match tempfile_loop env attempts i dir prefix last w with
  | (w', Returned (inr name)) =>
      fs w !! name = None ∧
      (∃ r, name = filepath_Join [dir; prefix +:+ nextSuffix r]) ∧
      w' = mkWorld (<[name := Bytes ""]> (fs w)) (trees w) (indexQueue w) (trace w)
  | (w', Returned (inl _)) => w' = w
  | _ => False
  end.
Proof.
  revert i last. induction attempts as [|n IH]; intros i last; simpl.
  - done.
  - unfold bind, get_fs at 1; simpl.
    destruct (decide (is_Some (fs w !! _))) as [Hex|Hfree]; simpl.
    + apply IH.
    + destruct (create_result env _) as [e|] eqn:Hc.
      * destruct (IsExist e); [apply IH|done].
      * unfold set_fs, ret; simpl. split_and!; [|eauto|done].
        by apply eq_None_not_Some.
Qed.

Lemma ioutil_TempFile_spec env dir prefix w :
  dir ≠ "" →
  match ioutil_TempFile env dir prefix w with
  | (w', Returned (inr name)) =>
      fs w !! name = None ∧
      (∃ r, name = filepath_Join [dir; prefix +:+ nextSuffix r]) ∧
      w' = mkWorld (<[name := Bytes ""]> (fs w)) (trees w) (indexQueue w) (trace w)
  | (w', Returned (inl _)) => w' = w
  | _ => False
  end.
Proof.
  intros Hd. unfold ioutil_TempFile. rewrite decide_False by done.
  apply tempfile_loop_spec.
Qed.

(** The three ways a merge request ends. *)
Lemma mergeToShard_inv cfg env r w w' o :
  mergeToShard cfg env r w = (w', o) →
  (∃ e pre,
      o = Exited 1 ∧
      trace w' = trace w ++ pre ++ [Fatal "%v" [ArgErr e]] ∧
      Forall (λ ev, is_ConcatN ev = false) pre ∧
      (os_Open env (unpackedPath (flags cfg)) = Some e ∨
       readdirnames_result env (unpackedPath (flags cfg)) = inl e ∨
       (∃ w1, ioutil_TempFile env (unpackedPath (flags cfg)) "newshard" w1
              = (w1, Returned (inl e))) ∨
       create_result env (cpuProfile (flags cfg)) = Some e)) ∨
  (∃ names,
      readdirnames_result env (unpackedPath (flags cfg)) = inr names ∧
      length (select_index_files cfg names) = 1 ∧
      o = Returned (mkResponse StatusOK "") ∧
      w' = mkWorld (fs w) (trees w) (indexQueue w)
             (trace w ++ [Printf "Got %d index files\n" [ArgInt 1]])) ∨
  (∃ names r0,
      let indexFiles := select_index_files cfg names in
      let tmp := filepath_Join
                   [unpackedPath (flags cfg); "newshard" +:+ nextSuffix r0] in
      let f1 := profile_file cfg (<[tmp := Bytes ""]> (fs w)) in
      readdirnames_result env (unpackedPath (flags cfg)) = inr names ∧
      length indexFiles ≠ 1 ∧
      o = Returned (mkResponse StatusOK "") ∧
      fs w !! tmp = None ∧
      w' = mkWorld
             (<[tmp := IndexData (concat (map (docs_of f1) indexFiles))]> f1)
             (trees w) (indexQueue w)
             (trace w ++
              [Printf "Got %d index files\n" [ArgInt (length indexFiles)]] ++
              profile_start cfg ++
              [ConcatN tmp indexFiles;
               Printf "merged in %v\n" [ArgDuration];
               Printf "merged into shard %s\n" [ArgStr tmp]] ++
              profile_stop cfg)).
Proof.
  unfold mergeToShard.
  destruct (os_Open env _) as [e|] eqn:Hopen.
  { intros [= <- <-]. left. exists e, []. simpl. eauto 10. }
  destruct (readdirnames_result env _) as [e|names] eqn:Hread.
  { intros [= <- <-]. left. exists e, []. simpl. eauto 10. }
  assert (Hup : unpackedPath (flags cfg) ≠ "").
  { intros Heq. unfold os_Open in Hopen. by rewrite Heq in Hopen. }
  unfold bind at 1, log_Printf, emit; simpl.
  destruct (decide (length (select_index_files cfg names) = 1)) as [H1|H1].
  { intros [= <- <-]. right; left. exists names. by rewrite H1. }
  unfold bind at 1.
  set (w1 := mkWorld _ _ _ _).
  pose proof (ioutil_TempFile_spec env (unpackedPath (flags cfg))
                "newshard" w1 Hup) as Htmp.
  destruct (ioutil_TempFile env _ _ w1) as [w2 [[e|tmp]|c|msg]] eqn:Htf;
    [|..|done|done].
  { subst w2. intros [= <- <-]. left.
    exists e, [Printf "Got %d index files\n"
                 [ArgInt (length (select_index_files cfg names))]].
    simpl. split_and!; [done|by rewrite <- app_assoc|by repeat constructor|].
    right; right; left. by exists w1. }
  destruct Htmp as (Hfresh & [r0 ->] & ->). simpl in Hfresh.
  unfold profile_start, profile_stop, profile_file.
  destruct (decide (cpuProfile (flags cfg) ≠ "")) as [Hp|Hp].
  - unfold bind at 1. unfold bind at 1. unfold os_Create.
    destruct (create_result env (cpuProfile (flags cfg))) as [e|] eqn:Hc.
    { intros [= <- <-]. left.
      exists e, [Printf "Got %d index files\n"
                   [ArgInt (length (select_index_files cfg names))]].
      simpl. split_and!; [done|by rewrite <- app_assoc|by repeat constructor|].
      eauto 10. }
    intros [= <- <-]. right; right. exists names, r0. simpl.
    split_and!; [done..|]. f_equal. by rewrite <- !app_assoc.
  - intros [= <- <-]. right; right. exists names, r0. simpl.
    split_and!; [done..|]. f_equal. by rewrite <- !app_assoc.
Qed.

Lemma docs_of_insert_ne f p q d :
  p ≠ q → docs_of (<[p := d]> f) q = docs_of f q.
Proof. intros Hne. unfold docs_of. by rewrite lookup_insert_ne. Qed.





(** C1: with no [.idx] file in the shard directory the handler does not
    return early: it creates a temporary file and calls [ConcatN] on it
    with no input at all. *)
Theorem merge_without_shards_creates_file :
  let env := quiet_env ["README"] (Dir []) 123456789 in
  let res := mergeToShard default_config env merge_request empty_world in
  select_index_files default_config ["README"] = [] ∧
  res.2 = Returned (mkResponse StatusOK "") ∧
  fs res.1 !! "/dcs-ssd/unpacked/newshard123456789" = Some (IndexData []) ∧
  trace res.1 =
    [Printf "Got %d index files\n" [ArgInt 0];
     ConcatN "/dcs-ssd/unpacked/newshard123456789" [];
     Printf "merged in %v\n" [ArgDuration];
     Printf "merged into shard %s\n"
       [ArgStr "/dcs-ssd/unpacked/newshard123456789"]].
Proof. vm_compute. done. Qed.

(** With exactly one [.idx] file the handler returns after the count is
    logged: no file is created and nothing is merged. *)
Lemma merge_single_shard_noop cfg env r w names :
  os_Open env (unpackedPath (flags cfg)) = None →
  readdirnames_result env (unpackedPath (flags cfg)) = inr names →
  length (select_index_files cfg names) = 1 →
  mergeToShard cfg env r w =
    (mkWorld (fs w) (trees w) (indexQueue w)
       (trace w ++ [Printf "Got %d index files\n" [ArgInt 1]]),
     Returned (mkResponse StatusOK "")).
Proof.
  intros Hopen Hread Hone. unfold mergeToShard. rewrite Hopen, Hread.
  unfold bind, log_Printf, emit; simpl.
  rewrite decide_True by done. by rewrite Hone.
Qed.

Lemma mergeToShard_events cfg env r w w' o :
  mergeToShard cfg env r w = (w', o) →
  ∃ evs, trace w' = trace w ++ evs ∧ Forall (merge_event cfg) evs.
Proof.
  intros Hrun.
  destruct (mergeToShard_inv _ _ _ _ _ _ Hrun)
    as [(e & pre & _ & -> & Hpre & _)|[(names & _ & _ & _ & ->)|
        (names & r0 & _ & _ & _ & _ & ->)]].
  - eexists; split; [done|]. apply Forall_app; split.
    + eapply Forall_impl; [exact Hpre|]. by intros [].
    + by repeat constructor.
  - eexists; split; [done|]. by repeat constructor.
  - eexists; split; [done|]. cbn [trace].
    unfold profile_start, profile_stop.
    repeat first [apply Forall_app; split | case_decide
                 | apply Forall_cons; split | apply Forall_nil]; try done.
    all: split; [by eexists|];
      intros p (name & _ & ? & ->)%select_index_files_elem; eauto.
Qed.

Lemma serve_merges_events cfg runs w w' o :
  serve_merges cfg runs w = (w', o) →
  ∃ evs, trace w' = trace w ++ evs ∧ Forall (merge_event cfg) evs.
Proof.
  revert w. induction runs as [|[env r] runs IH]; intros w; simpl.
  - intros [= <- <-]. exists []. by rewrite app_nil_r.
  - unfold bind.
    destruct (mergeToShard cfg env r w) as [w1 o1] eqn:Hrun.
    apply mergeToShard_events in Hrun as (evs1 & Ht1 & Hevs1).
    destruct o1 as [resp|c|msg].
    + intros (evs2 & Ht2 & Hevs2)%IH. exists (evs1 ++ evs2).
      rewrite Ht2, Ht1, <- app_assoc. split; [done|]. by apply Forall_app.
    + intros [= <- <-]. eauto.
    + intros [= <- <-]. eauto.
Qed.

(** C10: in the trace of any sequence of merge requests, the output of a
    [ConcatN] call has a name made of [newshard] and a random suffix,
    which does not end in [.idx]; the inputs of a [ConcatN] call are
    names of the scan that end in [.idx]; so the output of one call is
    never among the inputs of a call (a later one in particular). *)
Theorem merged_shard_never_merged_again cfg runs f t q i j dst srcs dst' srcs' :
  let w' := (serve_merges cfg runs (mkWorld f t q [])).1 in
  trace w' !! i = Some (ConcatN dst srcs) →
  trace w' !! j = Some (ConcatN dst' srcs') →
  (∃ r0, dst = filepath_Join
                 [unpackedPath (flags cfg); "newshard" +:+ nextSuffix r0]) ∧
  strings_HasSuffix dst ".idx" = false ∧
  (∀ p, p ∈ srcs' →
        ∃ name, strings_HasSuffix name ".idx" = true ∧
                p = filepath_Join [unpackedPath (flags cfg); name]) ∧
  dst ∉ srcs'.
Proof.
  intros w' Hi Hj.
  destruct (serve_merges cfg runs (mkWorld f t q [])) as [w1 o] eqn:Hrun.
  apply serve_merges_events in Hrun as (evs & Ht & Hevs).
  subst w'. cbn [fst trace] in *. rewrite Ht, app_nil_l in Hi, Hj.
  rewrite Forall_lookup in Hevs.
  pose proof (Hevs _ _ Hi) as [[r0 ->] _].
  pose proof (Hevs _ _ Hj) as [_ Hsrcs].
  split_and!; [by eexists|apply tempfile_name_not_idx|done|].
  intros (name & Hs & Heq)%Hsrcs.
  pose proof (index_file_last_byte (unpackedPath (flags cfg)) name Hs) as Hl.
  rewrite <- Heq in Hl.
  destruct (tempfile_name_last_byte (unpackedPath (flags cfg)) "newshard" r0)
    as (c & Hc & Hd).
  rewrite Hc in Hl. injection Hl as ->. done.
Qed.

Lemma merged_shard_never_merged_again_witness :
  let runs :=
    [(quiet_env ["a.idx"; "b.idx"] (Dir []) 123456789, merge_request);
     (quiet_env ["a.idx"; "b.idx"; "newshard123456789"; "c.idx"] (Dir []) 5,
      merge_request)] in
  let dst := "/dcs-ssd/unpacked/newshard123456789" in
  let srcs' := ["/dcs-ssd/unpacked/a.idx"; "/dcs-ssd/unpacked/b.idx";
                "/dcs-ssd/unpacked/c.idx"] in
  (∃ r0, dst = filepath_Join ["/dcs-ssd/unpacked/"; "newshard" +:+ nextSuffix r0]) ∧
  strings_HasSuffix dst ".idx" = false ∧
  (∀ p, p ∈ srcs' →
        ∃ name, strings_HasSuffix name ".idx" = true ∧
                p = filepath_Join ["/dcs-ssd/unpacked/"; name]) ∧
  dst ∉ srcs'.
Proof.
  intros runs dst srcs'.
  apply (merged_shard_never_merged_again default_config runs ∅ ∅ [] 1 5
           dst ["/dcs-ssd/unpacked/a.idx"; "/dcs-ssd/unpacked/b.idx"]
           "/dcs-ssd/unpacked/newshard000000005" srcs').
  - vm_compute. reflexivity.
  - vm_compute. reflexivity.
Defined.

(** ** The tree walk *)

Section WalkRules.
Context (env : Env).
Context (fn : string → option FileInfo → option error → option node →
              M (walk_error * option node)).
(** [R]: how a world that the walk returns in relates to the world it
    started in; [Ex] and [Px]: the same when it exits and when it
    panics. *)
Context (R Ex Px : World → World → Prop).
Hypothesis R_refl : ∀ w, R w w.
Hypothesis R_trans : ∀ w1 w2 w3, R w1 w2 → R w2 w3 → R w1 w3.
Hypothesis Ex_trans : ∀ w1 w2 w3, R w1 w2 → Ex w2 w3 → Ex w1 w3.
Hypothesis Px_trans : ∀ w1 w2 w3, R w1 w2 → Px w2 w3 → Px w1 w3.
Hypothesis fn_ok :
  ∀ path info err cur w,
    wp (fn path info err cur) w (λ w' _, R w w') (Ex w) (Px w).

Lemma wp_step {A B} (m : M A) (k : A → M B) w :
  wp m w (λ w' _, R w w') (Ex w) (Px w) →
  (∀ a w', wp (k a) w' (λ w'' _, R w' w'') (Ex w') (Px w')) →
  wp (bind m k) w (λ w'' _, R w w'') (Ex w) (Px w).
Proof.
  intros Hm Hk. apply wp_bind. eapply wp_mono; [exact Hm| |done|done].
  intros w' a HR. simpl in HR.
  eapply wp_mono; [apply Hk|..]; simpl; eauto.
Qed.

Lemma visit_preserves rec path es :
  Forall (λ e, ∀ p w,
            wp (rec p e.2) w (λ w' _, R w w') (Ex w) (Px w)) es →
  ∀ w, wp (visit env fn rec path es) w (λ w' _, R w w') (Ex w) (Px w).
Proof.
  induction 1 as [|[name child] rest Hc _ IH]; intros w; simpl.
  - by apply wp_ret.
  - destruct (lstat_result env _).
    + apply wp_step; [apply fn_ok|]. intros [_ cur] w1.
      apply wp_step; [apply IH|]. intros [err rest'] w2. by apply wp_ret.
    + apply wp_step; [apply Hc|]. intros [err cur] w1.
      destruct err, (IsDir (lstat_info child));
        first [by apply wp_ret
              | apply wp_step; [apply IH|]; intros [err rest'] w2;
                by apply wp_ret].
Qed.

(** What every call of the function preserves, the walk preserves;
    and the walk exits or panics only where the function does. *)
Lemma walk_preserves n :
  ∀ path w, wp (walk env fn path n) w (λ w' _, R w w') (Ex w) (Px w).
Proof.
  induction n as [regular|entries IH] using node_induction; intros path w.
  - simpl. apply wp_step; [apply fn_ok|]. intros [[] cur] w1;
      by apply wp_ret.
  - cbn [walk]. apply wp_step; [apply fn_ok|]. intros [[] cur] w1.
    + destruct (match cur with
                | Some _ => readdir_result env path
                | None => Some ENOENT
                end); [apply fn_ok|].
      apply wp_step; [by apply visit_preserves|].
      intros [err entries'] w2. by apply wp_ret.
    + simpl. by apply wp_ret.
Qed.
End WalkRules.

Lemma walk_returns_refl index w : walk_returns index w w.
Proof. exists []. by rewrite app_nil_r. Qed.

Lemma walk_returns_trans index w1 w2 w3 :
  walk_returns index w1 w2 → walk_returns index w2 w3 →
  walk_returns index w1 w3.
Proof.
  intros (evs1 & Ht1 & He1 & Htr1 & Hq1 & Hf1)
         (evs2 & Ht2 & He2 & Htr2 & Hq2 & Hf2).
  exists (evs1 ++ evs2). rewrite Ht2, Ht1, <- app_assoc.
  split_and!; [done|by apply Forall_app|congruence|congruence|].
  intros p Hp. by rewrite Hf2, Hf1.
Qed.

Lemma walk_exits_trans env index w1 w2 w3 :
  walk_returns index w1 w2 → walk_exits env index w2 w3 →
  walk_exits env index w1 w3.
Proof.
  intros (evs1 & Ht1 & He1 & _) (evs2 & format & p & e & Ht2 & He2 & Hd).
  exists (evs1 ++ evs2), format, p, e. rewrite Ht2, Ht1, <- !app_assoc.
  split_and!; [done|by apply Forall_app|done].
Qed.

Lemma walk_panics_trans index w1 w2 w3 :
  walk_returns index w1 w2 → walk_panics index w2 w3 →
  walk_panics index w1 w3.
Proof.
  intros (evs1 & Ht1 & He1 & _) (evs2 & Ht2 & He2).
  exists (evs1 ++ evs2). rewrite Ht2, Ht1, <- !app_assoc.
  split; [done|by apply Forall_app].
Qed.

Lemma walk_exits_fatal env index w format p e :
  deletion_failed env format p e →
  walk_exits env index w
    (mkWorld (fs w) (trees w) (indexQueue w)
       (trace w ++ [Fatal format [ArgStr p; ArgErr e]])).
Proof. intros Hd. by exists [], format, p, e. Qed.

(** The part of the walk function after the ignored names. *)
Lemma walkFn_index_events env index stripLen path info cur w :
  wp (walkFn_index env index stripLen path info cur) w
    (λ w' _, walk_returns index w w')
    (walk_exits env index w) (walk_panics index w).
Proof.
  unfold walkFn_index. destruct info as [fi|]; [|apply wp_ret, walk_returns_refl].
  destruct (IsRegular fi); simpl; [|apply wp_ret, walk_returns_refl].
  destruct (utf8_ValidString path) eqn:Hv; simpl.
  - destruct (slice_from path stripLen) as [rel|];
      [|by exists []; rewrite app_nil_r].
    unfold wp, bind, index_AddFile, emit; simpl.
    destruct (addfile_result env path) as [e0|]; simpl.
    + destruct (os_Remove env path cur) as [[e|] cur'] eqn:Hrm; simpl.
      * exists [AddFile index path rel],
          "Could not remove file %q: %v\n", path, e.
        rewrite <- app_assoc. split_and!; [done|by repeat constructor|].
        right. split; [done|]. exists cur. by rewrite Hrm.
      * exists [AddFile index path rel]. split_and!; try done.
        by repeat constructor.
    + exists [AddFile index path rel]. cbn [fs trace trees indexQueue].
      split_and!; try done; [by repeat constructor|].
      intros p Hp. by rewrite lookup_alter_ne.
  - unfold wp, bind, log_Printf, emit; simpl.
    exists [Printf "Skipping due to invalid UTF-8: %s\n" [ArgStr path]].
    split_and!; try done. repeat constructor. eauto.
Qed.

(** The walk function adds to the trace only notes on skipped paths and
    calls of [AddFile] on valid paths, and it exits only when a removal
    failed. *)
Lemma walkFn_events cfg env index stripLen path info err cur w :
  wp (walkFn cfg env index stripLen path info err cur) w
    (λ w' _, walk_returns index w w')
    (walk_exits env index w) (walk_panics index w).
Proof.
  unfold walkFn. destruct (filepath_Split path) as [d filename].
  destruct (decide (filename ≠ "")); [|apply walkFn_index_events].
  destruct info as [fi|]; [|by exists []; rewrite app_nil_r].
  destruct (IsDir fi && map_index (ignoredDirnames cfg) filename).
  { unfold os_RemoveAll. destruct cur as [nd|]; [|apply wp_ret, walk_returns_refl].
    destruct (removeall_result env path) as [e|] eqn:Hrm;
      [|apply wp_ret, walk_returns_refl].
    apply walk_exits_fatal. by left. }
  destruct (map_index (ignoredFilenames cfg) filename);
    [|apply walkFn_index_events].
  destruct (os_Remove env path cur) as [[e|] cur'] eqn:Hrm;
    [|apply wp_ret, walk_returns_refl].
  apply walk_exits_fatal. right. split; [done|]. exists cur. by rewrite Hrm.
Qed.

Lemma walk_events cfg env index stripLen path n w :
  wp (walk env (walkFn cfg env index stripLen) path n) w
    (λ w' _, walk_returns index w w')
    (walk_exits env index w) (walk_panics index w).
Proof.
  apply walk_preserves;
    eauto using walk_returns_refl, walk_returns_trans, walk_exits_trans,
      walk_panics_trans, walkFn_events.
Qed.

Lemma wp_and {A} (m : M A) w (Q1 Q2 : World → A → Prop) E1 E2 P1 P2 :
  wp m w Q1 E1 P1 → wp m w Q2 E2 P2 →
  wp m w (λ w' a, Q1 w' a ∧ Q2 w' a) (λ w', E1 w' ∧ E2 w') (λ w', P1 w' ∧ P2 w').
Proof. unfold wp. by destruct (m w) as [w' [a|c|msg]]. Qed.

Lemma entry_ok_mono cfg env index tr tr' p n :
  entry_ok cfg env index tr p n → entry_ok cfg env index (tr ++ tr') p n.
Proof.
  intros [Hn Hr]. split; [done|]. intros [?|[? [rel ?]]]%Hr; [by left|right].
  split; [done|]. exists rel. apply elem_of_app. by left.
Qed.

Section CompleteWalk.
Context (cfg : Config) (env : Env) (index : string) (stripLen : nat).
Hypothesis Hlstat : ∀ p, lstat_result env p = None.
Hypothesis Hreaddir : ∀ p, readdir_result env p = None.

Lemma tree_ok_mono tr tr' path cur :
  tree_ok cfg env index tr path cur → tree_ok cfg env index (tr ++ tr') path cur.
Proof. intros H t Ht p n Hp. by eapply entry_ok_mono, H. Qed.

Lemma walkFn_index_first path n w :
  name_ok cfg path n →
  wp (walkFn_index env index stripLen path (Some (lstat_info n)) (Some n)) w
    (λ w' '(err, cur),
       err = WalkNil ∧
       (cur = None ∨
        (cur = Some n ∧ entry_ok cfg env index (trace w') path n)))
    (λ _, True) (λ _, True).
Proof.
  intros Hname. unfold walkFn_index.
  destruct (IsRegular (lstat_info n)) eqn:Hreg; simpl.
  2:{ apply wp_ret. split; [done|]. right. split; [done|].
      split; [done|]. by rewrite Hreg. }
  destruct (utf8_ValidString path) eqn:Hv; simpl.
  2:{ unfold wp, bind, log_Printf, emit; simpl. split; [done|]. right.
      split; [done|]. split; [done|]. by left. }
  destruct (slice_from path stripLen) as [rel|]; [|done].
  unfold wp, bind, index_AddFile, emit; simpl.
  destruct (addfile_result env path) as [e0|] eqn:Hadd; simpl.
  - unfold os_Remove. destruct n as [regular|entries]; [|done].
    destruct (remove_result env path); simpl; [done|]. split; [done|by left].
  - split; [done|]. right. split; [done|]. split; [done|]. intros _. right.
    split; [done|]. exists rel. cbn [trace]. apply elem_of_app. right.
    by apply list_elem_of_singleton.
Qed.

(** The first call of the walk function on an entry either removes it
    or leaves it as the walk means to; [SkipDir] comes only for a
    directory that is removed. *)
Lemma walkFn_first path n w :
  wp (walkFn cfg env index stripLen path (Some (lstat_info n)) None (Some n)) w
    (λ w' '(err, cur),
       (cur = None ∧ (err = SkipDir → IsDir (lstat_info n) = true)) ∨
       (cur = Some n ∧ err = WalkNil ∧
        entry_ok cfg env index (trace w') path n))
    (λ _, True) (λ _, True).
Proof.
  assert (Hidx : name_ok cfg path n →
    wp (walkFn_index env index stripLen path (Some (lstat_info n)) (Some n)) w
      (λ w' '(err, cur),
         (cur = None ∧ (err = SkipDir → IsDir (lstat_info n) = true)) ∨
         (cur = Some n ∧ err = WalkNil ∧
          entry_ok cfg env index (trace w') path n))
      (λ _, True) (λ _, True)).
  { intros Hname.
    eapply wp_mono; [apply (walkFn_index_first path n w Hname)| |done..].
    intros w' [err cur] [-> [->|[-> Hok]]]; [left|right]; done. }
  unfold walkFn, name_ok in *.
  destruct (filepath_Split path) as [d filename]; cbn [snd] in *.
  destruct (decide (filename ≠ "")) as [Hne|Hne]; [|by apply Hidx].
  destruct (IsDir (lstat_info n)) eqn:Hdir; cbn [andb].
  - destruct (map_index (ignoredDirnames cfg) filename) eqn:Hd.
    { unfold os_RemoveAll. destruct (removeall_result env path); [done|].
      apply wp_ret. by left. }
    destruct (map_index (ignoredFilenames cfg) filename) eqn:Hf;
      [|by apply Hidx].
    destruct (os_Remove env path (Some n)) as [[e|] cur'] eqn:Hrm; [exact I|].
    apply wp_ret. left. split; [|done].
    unfold os_Remove in Hrm. destruct n as [|[|]]; try done;
      by destruct (remove_result env path); simplify_eq.
  - destruct (map_index (ignoredFilenames cfg) filename) eqn:Hf;
      [|by apply Hidx].
    destruct (os_Remove env path (Some n)) as [[e|] cur'] eqn:Hrm; [exact I|].
    apply wp_ret. left. split; [|done].
    unfold os_Remove in Hrm. destruct n as [|[|]]; try done;
      by destruct (remove_result env path); simplify_eq.
Qed.

(** Called on an entry that is gone, the walk function does not bring
    it back. *)
Lemma walkFn_gone path info err w :
  wp (walkFn cfg env index stripLen path info err None) w
    (λ w' '(_, cur), cur = None) (λ _, True) (λ _, True).
Proof.
  assert (Hidx :
    wp (walkFn_index env index stripLen path info None) w
      (λ w' '(_, cur), cur = None) (λ _, True) (λ _, True)).
  { unfold walkFn_index. destruct info as [fi|]; [|done].
    destruct (IsRegular fi); [|done]. simpl.
    destruct (utf8_ValidString path); [|done]. simpl.
    destruct (slice_from path stripLen); [|done].
    unfold wp, bind, index_AddFile, emit; simpl.
    by destruct (addfile_result env path). }
  unfold walkFn. destruct (filepath_Split path) as [d filename].
  destruct (decide (filename ≠ "")); [|done].
  destruct info as [fi|]; [|done].
  destruct (IsDir fi && map_index (ignoredDirnames cfg) filename); [done|].
  by destruct (map_index (ignoredFilenames cfg) filename).
Qed.

Lemma walk_returns_tree_ok w w' path cur :
  walk_returns index w w' → tree_ok cfg env index (trace w) path cur →
  tree_ok cfg env index (trace w') path cur.
Proof. intros (evs & -> & _). apply tree_ok_mono. Qed.

Lemma visit_good rec path es :
  Forall (λ e, ∀ p w, wp (rec p e.2) w (walk_post cfg env index p e.2 w)
                        (λ _, True) (λ _, True)) es →
  ∀ w, wp (visit env (walkFn cfg env index stripLen) rec path es) w
         (λ w' r,
            walk_returns index w w' ∧
            ∀ name child, (name, child) ∈ r.2 →
              tree_ok cfg env index (trace w') (filepath_Join [path; name]) (Some child))
         (λ _, True) (λ _, True).
Proof.
  induction 1 as [|[name child] rest Hc _ IH]; intros w; simpl.
  - apply wp_ret. split; [apply walk_returns_refl|].
    intros ?? Hin. by apply elem_of_nil in Hin.
  - rewrite Hlstat. apply wp_bind.
    eapply wp_mono; [apply Hc| |done|done].
    intros w1 [err cur] (HR1 & Hskip & Hok). simpl in *.
    assert (Hcont :
      wp (let* '(err0, rest') :=
            visit env (walkFn cfg env index stripLen) rec path rest in
          ret (err0, keep_entry name cur rest')) w1
        (λ w' r,
           walk_returns index w w' ∧
           ∀ name0 child0, (name0, child0) ∈ r.2 →
             tree_ok cfg env index (trace w') (filepath_Join [path; name0]) (Some child0))
        (λ _, True) (λ _, True)).
    { apply wp_bind. eapply wp_mono; [apply IH| |done|done].
      intros w2 [err' rest'] [HR2 Hrest]. apply wp_ret. simpl in *.
      split; [by eapply walk_returns_trans|].
      intros name0 child0 Hin. unfold keep_entry in Hin.
      destruct cur as [c|]; [|by apply Hrest].
      apply elem_of_cons in Hin as [[= -> ->]|Hin]; [|by apply Hrest].
      by eapply walk_returns_tree_ok. }
    destruct err; [exact Hcont|].
    destruct (IsDir (lstat_info child)); [exact Hcont|].
    by specialize (Hskip eq_refl).
Qed.

(** A walk in which every entry can be examined and every directory
    listed leaves only entries as it means to leave them. *)
Lemma walk_good n :
  ∀ path w, wp (walk env (walkFn cfg env index stripLen) path n) w
              (walk_post cfg env index path n w) (λ _, True) (λ _, True).
Proof.
  induction n as [regular|entries IH] using node_induction; intros path w.
  - cbn [walk]. apply wp_bind.
    eapply wp_mono;
      [apply wp_and; [apply walkFn_events|apply walkFn_first]| |done|done].
    intros w1 [err cur] [HR [[-> Hskip]|(-> & -> & Hok)]].
    + destruct err; [|by specialize (Hskip eq_refl)].
      apply wp_ret. by split_and!.
    + apply wp_ret. split_and!; [done|done|].
      intros t [= <-] p n' Hat. by inversion Hat; subst.
  - cbn [walk]. apply wp_bind.
    eapply wp_mono;
      [apply wp_and; [apply walkFn_events|apply walkFn_first]| |done|done].
    intros w1 [err cur] [HR [[-> Hskip]|(-> & -> & Hok)]].
    + destruct err; [|apply wp_ret; by split_and!].
      eapply wp_mono;
        [apply wp_and; [apply walkFn_events|apply walkFn_gone]| |done|done].
      intros w2 [err' cur'] [HR2 ->]. split_and!; [|done..].
      by eapply walk_returns_trans.
    + rewrite Hreaddir. apply wp_bind.
      eapply wp_mono; [by apply visit_good| |done|done].
      intros w2 [err' entries'] [HR2 Hrest]. apply wp_ret.
      split_and!; [by eapply walk_returns_trans|done|].
      intros t [= <-] p n' Hat. inversion Hat; subst.
      * destruct HR2 as (evs & Heq & _). rewrite Heq.
        apply entry_ok_mono. exact Hok.
      * by eapply Hrest.
Qed.
End CompleteWalk.

(** ** The worker *)

Lemma walk_event_worker index ev : walk_event index ev → worker_event ev.
Proof. destruct ev; simpl; tauto. Qed.

Lemma job_returns_refl w : job_returns w w.
Proof. exists []. by rewrite app_nil_r. Qed.

Lemma job_returns_trans w1 w2 w3 :
  job_returns w1 w2 → job_returns w2 w3 → job_returns w1 w3.
Proof.
  intros (evs1 & Ht1 & He1) (evs2 & Ht2 & He2).
  exists (evs1 ++ evs2). rewrite Ht2, Ht1, <- app_assoc.
  split; [done|by apply Forall_app].
Qed.

Lemma job_exits_trans env w1 w2 w3 :
  job_returns w1 w2 → job_exits env w2 w3 → job_exits env w1 w3.
Proof.
  intros (evs1 & Ht1 & He1) (evs2 & format & p & e & Ht2 & He2 & Hd).
  exists (evs1 ++ evs2), format, p, e. rewrite Ht2, Ht1, <- !app_assoc.
  split_and!; [done|by apply Forall_app|done].
Qed.

Lemma job_returns_emit w ev :
  worker_event ev →
  job_returns w (mkWorld (fs w) (trees w) (indexQueue w) (trace w ++ [ev])).
Proof. intros Hev. exists [ev]. split; [done|by repeat constructor]. Qed.

Lemma walk_returns_job index w w' : walk_returns index w w' → job_returns w w'.
Proof.
  intros (evs & Ht & He & _). exists evs. split; [done|].
  eapply Forall_impl; [exact He|]. apply walk_event_worker.
Qed.

Lemma walk_exits_job env index w w' : walk_exits env index w w' → job_exits env w w'.
Proof.
  intros (evs & format & p & e & Ht & He & Hd). exists evs, format, p, e.
  split_and!; [done| |done].
  eapply Forall_impl; [exact He|]. apply walk_event_worker.
Qed.

Lemma walk_panics_job index w w' : walk_panics index w w' → job_returns w w'.
Proof.
  intros (evs & Ht & He). exists evs. split; [done|].
  eapply Forall_impl; [exact He|]. apply walk_event_worker.
Qed.

Section Worker.
Context (cfg : Config) (env : Env).

Lemma job_step {A B} (m : M A) (k : A → M B) w :
  wp m w (λ w' _, job_returns w w') (job_exits env w) (job_returns w) →
  (∀ a w', wp (k a) w' (λ w'' _, job_returns w' w'')
             (job_exits env w') (job_returns w')) →
  wp (bind m k) w (λ w'' _, job_returns w w'')
    (job_exits env w) (job_returns w).
Proof.
  apply wp_step;
    eauto using job_returns_trans, job_exits_trans.
Qed.

Lemma emit_events ev w :
  worker_event ev →
  wp (emit ev) w (λ w' _, job_returns w w')
    (job_exits env w) (job_returns w).
Proof. intros Hev. by apply job_returns_emit. Qed.

Lemma put_tree_events root cur w :
  wp (put_tree root cur) w (λ w' _, job_returns w w')
    (job_exits env w) (job_returns w).
Proof. unfold wp, put_tree, bind, get_trees, set_trees; simpl.
       exists []. by rewrite app_nil_r. Qed.

Lemma fn_then_put_tree index stripLen root info err cur w :
  wp (let* '(err, cur) :=
        walkFn cfg env index stripLen root info err cur in
      put_tree root cur ;;; ret err) w
    (λ w' _, job_returns w w') (job_exits env w) (job_returns w).
Proof.
  apply job_step.
  - eapply wp_mono; [apply walkFn_events|..]; simpl;
      eauto using walk_returns_job, walk_exits_job, walk_panics_job.
  - intros [e c] w1. apply job_step; [apply put_tree_events|].
    intros _ w2. apply wp_ret, job_returns_refl.
Qed.

Lemma filepath_Walk_events index stripLen root w :
  wp (filepath_Walk env root (walkFn cfg env index stripLen)) w
    (λ w' _, job_returns w w') (job_exits env w) (job_returns w).
Proof.
  unfold filepath_Walk. apply job_step; [exact (job_returns_refl w)|].
  intros t w1. destruct (t !! root) as [n|]; [|apply fn_then_put_tree].
  destruct (lstat_result env root); [apply fn_then_put_tree|].
  apply job_step.
  - eapply wp_mono; [apply walk_events|..]; simpl;
      eauto using walk_returns_job, walk_exits_job, walk_panics_job.
  - intros [e c] w2. apply job_step; [apply put_tree_events|].
    intros _ w3. apply wp_ret, job_returns_refl.
Qed.

Lemma unpackAndIndex_body_events dscPath w :
  wp (unpackAndIndex_body cfg env dscPath) w
    (λ w' _, job_returns w w') (job_exits env w) (job_returns w).
Proof.
  unfold unpackAndIndex_body.
  apply job_step; [by apply emit_events|]. intros _ w1.
  apply job_step.
  { unfold run_dpkg_source. apply job_step;
      [by apply emit_events|]. intros _ w2.
    destruct (dpkg_source_result env _ _);
      [apply wp_ret, job_returns_refl|].
    unfold wp, bind, get_trees, set_trees; simpl.
    exists []. by rewrite app_nil_r. }
  intros [e|] w2; [by apply emit_events|].
  apply job_step.
  { unfold index_Create. apply job_step;
      [by apply emit_events|]. intros _ w3.
    unfold wp, bind, get_fs, set_fs; simpl.
    exists []. by rewrite app_nil_r. }
  intros index w3. apply job_step; [apply filepath_Walk_events|].
  intros _ w4. by apply emit_events.
Qed.

(** Whatever jobs a worker receives, it extends the trace by worker
    events only, and when it exits the last of them reports a removal
    that failed. *)
Lemma unpackAndIndex_events jobs w :
  wp (unpackAndIndex cfg env jobs) w
    (λ w' _, job_returns w w') (job_exits env w) (job_returns w).
Proof.
  revert w. induction jobs as [|dscPath jobs IH]; intros w; simpl.
  - apply wp_ret, job_returns_refl.
  - apply job_step; [apply unpackAndIndex_body_events|]. intros _ w1.
    apply IH.
Qed.
End Worker.

Arguments filepath_Join : simpl never.
Arguments filepath_Dir : simpl never.
Arguments walk : simpl never.
Arguments walkFn : simpl never.
Arguments String.length : simpl never.

(** After a job that returns, in a run in which every entry could be
    examined and every directory listed, every entry left under the
    unpack root is as the walk means to leave it. *)
Lemma unpackAndIndex_body_good cfg env dscPath w w' tree :
  (∀ p, lstat_result env p = None) →
  (∀ p, readdir_result env p = None) →
  let pkg := filepath_Dir dscPath in
  let unpacked := filepath_Join [tmpdir cfg; pkg; pkg] in
  let index := filepath_Join [tmpdir cfg; pkg +:+ ".idx"] in
  dpkg_source_result env (filepath_Join [tmpdir cfg; dscPath]) unpacked
    = inr tree →
  unpackAndIndex_body cfg env dscPath w = (w', Returned tt) →
  ∀ t' p n,
    trees w' !! unpacked = Some t' → entry_at unpacked t' p n →
    entry_ok cfg env index (trace w') p n.
Proof.
  intros Hlstat Hreaddir pkg unpacked index Hdpkg.
  unfold unpackAndIndex_body, run_dpkg_source, index_Create, filepath_Walk.
  fold pkg. fold unpacked. rewrite Hdpkg. fold index.
  unfold bind, log_Printf, index_Flush, put_tree, emit, get_trees,
    set_trees, get_fs, set_fs, ret; simpl.
  rewrite lookup_insert_eq, Hlstat.
  set (w3 := mkWorld _ _ _ _).
  set (stripLen := String.length _).
  pose proof (walk_good cfg env index stripLen Hlstat Hreaddir tree unpacked w3)
    as Hgood.
  unfold wp in Hgood.
  destruct (walk env (walkFn cfg env index stripLen) unpacked tree w3)
    as [w4 [[err cur]|c|msg]]; simpl; [|done..].
  destruct Hgood as (_ & _ & Hok).
  intros [= <-] t' p n Ht' Hat. simpl in *.
  apply entry_ok_mono. eapply Hok; [|done].
  destruct cur as [n'|].
  - by rewrite lookup_insert_eq in Ht'.
  - by rewrite lookup_delete_eq in Ht'.
Qed.

(** ** The upload handler *)

(** An upload ends with a response: the error response when a step
    failed, and then nothing is logged or enqueued; the acknowledgement
    when the file is stored, and then the path is enqueued if and only
    if the file name ends in [.dsc]. *)
Lemma importPackage_spec cfg env r w path :
  slice_from (URL_Path r) (String.length "/import/") = Some path →
  ∃ w' resp,
    importPackage cfg env r w = (w', Returned resp) ∧
    trees w' = trees w ∧
    match upload_error cfg env path with
    | Some e =>
        resp = http_Error (Error e) StatusInternalServerError ∧
        indexQueue w' = indexQueue w ∧ trace w' = trace w
    | None =>
        resp = mkResponse StatusOK
                 ("thank you for sending file " +:+ filepath_Base path +:+
                  " for package " +:+ filepath_Dir path +:+ "!" +:+ newline) ∧
        fs w' = <[filepath_Join [tmpdir cfg; path] := Bytes (Body r)]> (fs w) ∧
        indexQueue w' =
          indexQueue w ++
          (if strings_HasSuffix (filepath_Base path) ".dsc" then [path] else []) ∧
        trace w' =
          trace w ++
          [Printf "Wrote %d bytes into %s\n"
             [ArgInt (String.length (Body r)); ArgStr path]]
    end.
Proof.
  intros Hpath. unfold importPackage, upload_error. rewrite Hpath.
  unfold bind, os_Mkdir, os_Create, io_Copy, get_fs, set_fs, ret,
    log_Printf, emit, send.
  destruct (mkdir_result env _) as [e|]; [destruct (IsExist e)|]; simpl;
    try (by eexists _, _);
    (destruct (create_result env _) as [e1|]; simpl;
       [by eexists _, _|]);
    (destruct (copy_result env _) as [[n e2]|]; simpl;
       [by eexists _, _|]);
    destruct (strings_HasSuffix (filepath_Base path) ".dsc"); simpl;
    eexists _, _; (split; [reflexivity|]); simpl;
    rewrite insert_insert_eq, ?app_nil_r; done.
Qed.

(** C4: an upload ends with a response, and the queue grows by exactly
    the uploaded path when the file is stored and its name ends in
    [.dsc], and by nothing in every other case; a stored upload is
    acknowledged and is in the staging directory. *)
Theorem descriptor_upload_enqueues_job cfg env r w path :
  slice_from (URL_Path r) (String.length "/import/") = Some path →
  ∃ w' resp,
    importPackage cfg env r w = (w', Returned resp) ∧
    indexQueue w' =
      indexQueue w ++
      match upload_error cfg env path with
      | None =>
          if strings_HasSuffix (filepath_Base path) ".dsc" then [path] else []
      | Some _ => []
      end ∧
    (upload_error cfg env path = None →
     resp = mkResponse StatusOK
              ("thank you for sending file " +:+ filepath_Base path +:+
               " for package " +:+ filepath_Dir path +:+ "!" +:+ newline) ∧
     fs w' !! filepath_Join [tmpdir cfg; path] = Some (Bytes (Body r))).
Proof.
  intros Hpath.
  destruct (importPackage_spec cfg env r w path Hpath)
    as (w' & resp & Hrun & _ & Hspec).
  exists w', resp. split; [done|].
  destruct (upload_error cfg env path) as [e|].
  - destruct Hspec as (_ & -> & _). by rewrite app_nil_r.
  - destruct Hspec as (-> & Hfs & -> & _). split; [done|]. intros _.
    split; [done|]. by rewrite Hfs, lookup_insert_eq.
Qed.

Lemma descriptor_upload_enqueues_job_witness :
  let env := quiet_env [] (Dir []) 1 in
  let path := "i3-wm_4.7.2-1/i3-wm_4.7.2-1.dsc" in
  let r := mkRequest ("/import/" +:+ path) "Format: 3.0" in
  ∃ w' resp,
    importPackage default_config env r empty_world = (w', Returned resp) ∧
    indexQueue w' =
      indexQueue empty_world ++
      match upload_error default_config env path with
      | None =>
          if strings_HasSuffix (filepath_Base path) ".dsc" then [path] else []
      | Some _ => []
      end ∧
    (upload_error default_config env path = None →
     resp = mkResponse StatusOK
              ("thank you for sending file " +:+ filepath_Base path +:+
               " for package " +:+ filepath_Dir path +:+ "!" +:+ newline) ∧
     fs w' !! filepath_Join [tmpdir default_config; path]
       = Some (Bytes "Format: 3.0")).
Proof.
  intros env path r.
  apply (descriptor_upload_enqueues_job default_config env r empty_world path).
  reflexivity.
Defined.

(** The upload of a descriptor enqueues its path once; the upload of an
    archive enqueues nothing. *)
Example upload_queue_examples :
  indexQueue
    (importPackage default_config (quiet_env [] (Dir []) 1)
       (mkRequest "/import/i3-wm_4.7.2-1/i3-wm_4.7.2-1.dsc" "Format: 3.0")
       empty_world).1 = ["i3-wm_4.7.2-1/i3-wm_4.7.2-1.dsc"] ∧
  indexQueue
    (importPackage default_config (quiet_env [] (Dir []) 1)
       (mkRequest "/import/i3-wm_4.7.2-1/i3-wm_4.7.2.orig.tar.bz2" "BZh")
       empty_world).1 = [].
Proof. split; vm_compute; reflexivity. Qed.

(** ** Errors, and what the walk leaves behind *)




(** C5: when the unpack tool fails for a job, the worker logs the start
    and the failure, calls nothing of the index package and changes no
    file, and goes on with the jobs that follow. *)
Theorem failed_unpack_abandons_package cfg env dscPath jobs w e :
  let pkg := filepath_Dir dscPath in
  let unpacked := filepath_Join [tmpdir cfg; pkg; pkg] in
  dpkg_source_result env (filepath_Join [tmpdir cfg; dscPath]) unpacked
    = inl e →
  unpackAndIndex cfg env (dscPath :: jobs) w =
  unpackAndIndex cfg env jobs
    (mkWorld (fs w) (trees w) (indexQueue w)
       (trace w ++
        [Printf "Unpacking %s\n" [ArgStr pkg];
         Exec ["dpkg-source"; "--no-copy"; "--no-check"; "-x";
               filepath_Join [tmpdir cfg; dscPath]; unpacked];
         Printf "Skipping package %s: %v\n" [ArgStr pkg; ArgErr e]])).
Proof.
  intros pkg unpacked Hfail. cbn [unpackAndIndex].
  unfold unpackAndIndex_body, run_dpkg_source. fold pkg. fold unpacked.
  rewrite Hfail. unfold bind, log_Printf, emit, ret; simpl.
  by rewrite <- !app_assoc.
Qed.

Lemma failed_unpack_abandons_package_witness :
  unpackAndIndex default_config broken_package_env
    ["bad/bad.dsc"; "i3/i3.dsc"] empty_world =
  unpackAndIndex default_config broken_package_env ["i3/i3.dsc"]
    (mkWorld ∅ ∅ []
       ([] ++
        [Printf "Unpacking %s\n" [ArgStr (filepath_Dir "bad/bad.dsc")];
         Exec ["dpkg-source"; "--no-copy"; "--no-check"; "-x";
               filepath_Join [tmpdir default_config; "bad/bad.dsc"];
               filepath_Join [tmpdir default_config;
                              filepath_Dir "bad/bad.dsc";
                              filepath_Dir "bad/bad.dsc"]];
         Printf "Skipping package %s: %v\n"
           [ArgStr (filepath_Dir "bad/bad.dsc");
            ArgErr (mkError false "exit status 2")]])).
Proof.
  apply (failed_unpack_abandons_package default_config broken_package_env
           "bad/bad.dsc" ["i3/i3.dsc"] empty_world
           (mkError false "exit status 2")).
  reflexivity.
Defined.

(** C9: called with a nil [info] on a path whose base name is not
    empty, the walk function panics on [info.IsDir()] before it reaches
    the test [info == nil]; this is what happens to an entry of a
    directory that [lstat] cannot examine. *)
Theorem nil_info_panics cfg env index stripLen path err cur w :
  (filepath_Split path).2 ≠ "" →
  walkFn cfg env index stripLen path None err cur w =
    (w, Panicked "invalid memory address or nil pointer dereference") ∧
  ∀ rec dir name child rest e,
    filepath_Join [dir; name] = path →
    lstat_result env path = Some e →
    visit env (walkFn cfg env index stripLen) rec dir ((name, child) :: rest) w =
      (w, Panicked "invalid memory address or nil pointer dereference").
Proof.
  intros Hname.
  assert (Hfn : ∀ err cur,
    walkFn cfg env index stripLen path None err cur w =
      (w, Panicked "invalid memory address or nil pointer dereference")).
  { intros err' cur'. unfold walkFn.
    destruct (filepath_Split path) as [d filename]. simpl in Hname.
    by rewrite decide_True. }
  split; [apply Hfn|].
  intros rec dir name child rest e Hjoin Hlstat. cbn [visit].
  rewrite Hjoin, Hlstat. unfold bind at 1. by rewrite Hfn.
Qed.

Lemma nil_info_panics_witness :
  let env := stat_failure_env "/tmp/dcs-importer1/i3/i3/main.c" in
  walkFn default_config env "/tmp/dcs-importer1/i3.idx" 21
    "/tmp/dcs-importer1/i3/i3/main.c" None (Some ENOENT) None empty_world =
    (empty_world, Panicked "invalid memory address or nil pointer dereference") ∧
  ∀ rec dir name child rest e,
    filepath_Join [dir; name] = "/tmp/dcs-importer1/i3/i3/main.c" →
    lstat_result env "/tmp/dcs-importer1/i3/i3/main.c" = Some e →
    visit env (walkFn default_config env "/tmp/dcs-importer1/i3.idx" 21)
      rec dir ((name, child) :: rest) empty_world =
      (empty_world, Panicked "invalid memory address or nil pointer dereference").
Proof.
  intros env.
  apply (nil_info_panics default_config env "/tmp/dcs-importer1/i3.idx" 21
           "/tmp/dcs-importer1/i3/i3/main.c" (Some ENOENT) None empty_world).
  vm_compute. discriminate.
Defined.

(** A worker that meets an entry it cannot examine dies of the panic. *)
Example worker_panics_on_stat_failure :
  (unpackAndIndex default_config
     (stat_failure_env "/tmp/dcs-importer1/i3/i3/main.c")
     ["i3/i3.dsc"] empty_world).2 =
  Panicked "invalid memory address or nil pointer dereference".
Proof. vm_compute. reflexivity. Qed.

(** A directory that cannot be listed is passed over with all it
    holds: the walk completes, the file below it stays, and [AddFile] is
    not called on it. *)
Example unlistable_directory_left_unindexed :
  let tree := Dir [("src", Dir [("a.c", File true)])] in
  let res := unpackAndIndex_body default_config
               (unlistable_env tree "/tmp/dcs-importer1/i3/i3/src")
               "i3/i3.dsc" empty_world in
  res.2 = Returned tt ∧
  trees res.1 !! "/tmp/dcs-importer1/i3/i3" = Some tree ∧
  trace res.1 =
    [Printf "Unpacking %s\n" [ArgStr "i3"];
     Exec ["dpkg-source"; "--no-copy"; "--no-check"; "-x";
           "/tmp/dcs-importer1/i3/i3.dsc"; "/tmp/dcs-importer1/i3/i3"];
     IndexCreate "/tmp/dcs-importer1/i3.idx";
     Flush "/tmp/dcs-importer1/i3.idx"].
Proof. vm_compute. done. Qed.

(** C3, as stated: after a walk that completes, a regular
    file whose name is not valid UTF-8 is still under the unpack root,
    and it was not passed to [AddFile]. *)
Lemma invalid_utf8_file_left_unindexed :
  let res := unpackAndIndex_body default_config sample_env "i3/i3.dsc"
               empty_world in
  let bad := "/tmp/dcs-importer1/i3/i3/" +:+ latin1_name in
  res.2 = Returned tt ∧
  trees res.1 !! "/tmp/dcs-importer1/i3/i3" =
    Some (Dir [("main.c", File true); ("link", File false);
               (latin1_name, File true)]) ∧
  entry_at "/tmp/dcs-importer1/i3/i3"
    (Dir [("main.c", File true); ("link", File false);
          (latin1_name, File true)]) bad (File true) ∧
  trace res.1 =
    [Printf "Unpacking %s\n" [ArgStr "i3"];
     Exec ["dpkg-source"; "--no-copy"; "--no-check"; "-x";
           "/tmp/dcs-importer1/i3/i3.dsc"; "/tmp/dcs-importer1/i3/i3"];
     IndexCreate "/tmp/dcs-importer1/i3.idx";
     AddFile "/tmp/dcs-importer1/i3.idx" "/tmp/dcs-importer1/i3/i3/main.c"
       "/i3/main.c";
     Printf "Skipping due to invalid UTF-8: %s\n" [ArgStr bad];
     Flush "/tmp/dcs-importer1/i3.idx"] ∧
  ¬ (∃ index rel, AddFile index bad rel ∈ trace res.1).
Proof.
  intros res bad. split_and!.
  - vm_compute. reflexivity.
  - vm_compute. reflexivity.
  - replace bad with (filepath_Join ["/tmp/dcs-importer1/i3/i3"; latin1_name])
      by (vm_compute; reflexivity).
    apply (entry_below _ _ latin1_name (File true)); [|apply entry_here].
    apply elem_of_cons; right. apply elem_of_cons; right.
    apply elem_of_cons; by left.
  - vm_compute. reflexivity.
  - intros (index & rel & Hin).
    assert (Ht : trace res.1 =
      [Printf "Unpacking %s\n" [ArgStr "i3"];
       Exec ["dpkg-source"; "--no-copy"; "--no-check"; "-x";
             "/tmp/dcs-importer1/i3/i3.dsc"; "/tmp/dcs-importer1/i3/i3"];
       IndexCreate "/tmp/dcs-importer1/i3.idx";
       AddFile "/tmp/dcs-importer1/i3.idx" "/tmp/dcs-importer1/i3/i3/main.c"
         "/i3/main.c";
       Printf "Skipping due to invalid UTF-8: %s\n" [ArgStr bad];
       Flush "/tmp/dcs-importer1/i3.idx"]) by (vm_compute; reflexivity).
    rewrite Ht in Hin.
    repeat (apply elem_of_cons in Hin as [Hin|Hin];
            [discriminate Hin ||
             (injection Hin as _ Hp _; vm_compute in Hp; discriminate Hp)|]).
    by apply elem_of_nil in Hin.
Qed.

(** C3, amended: a directory with an ignored name is removed with all
    it holds and not entered; a file with an ignored name is removed; a
    file that [AddFile] rejects is removed; when one of these removals
    fails the process exits; and after a job that returns, in which
    every entry could be examined and every directory listed, no entry
    under the unpack root has an ignored name, and every regular file
    there either has a path that is not valid UTF-8 or was passed to
    [AddFile], which accepted it. *)
Theorem walk_removes_or_indexes cfg env dscPath w w' tree :
  let pkg := filepath_Dir dscPath in
  let unpacked := filepath_Join [tmpdir cfg; pkg; pkg] in
  let index := filepath_Join [tmpdir cfg; pkg +:+ ".idx"] in
  let stripLen := String.length (filepath_Join [tmpdir cfg; pkg]) in
  let fn := walkFn cfg env index stripLen in
  (∀ path entries w0,
     (filepath_Split path).2 ≠ "" →
     map_index (ignoredDirnames cfg) (filepath_Split path).2 = true →
     walk env fn path (Dir entries) w0 =
       match removeall_result env path with
       | None => (w0, Returned (WalkNil, None))
       | Some e =>
           log_Fatalf "Could not remove directory %q: %v\n"
             [ArgStr path; ArgErr e] w0
       end) ∧
  (∀ path regular w0,
     (filepath_Split path).2 ≠ "" →
     map_index (ignoredFilenames cfg) (filepath_Split path).2 = true →
     walk env fn path (File regular) w0 =
       match remove_result env path with
       | None => (w0, Returned (WalkNil, None))
       | Some e =>
           log_Fatalf "Could not remove file %q: %v\n"
             [ArgStr path; ArgErr e] w0
       end) ∧
  (∀ path rel e0 w0,
     (filepath_Split path).2 = "" ∨
     map_index (ignoredFilenames cfg) (filepath_Split path).2 = false →
     utf8_ValidString path = true →
     slice_from path stripLen = Some rel →
     addfile_result env path = Some e0 →
     walk env fn path (File true) w0 =
       let w1 := mkWorld (fs w0) (trees w0) (indexQueue w0)
                   (trace w0 ++ [AddFile index path rel]) in
       match remove_result env path with
       | None => (w1, Returned (WalkNil, None))
       | Some e =>
           log_Fatalf "Could not remove file %q: %v\n"
             [ArgStr path; ArgErr e] w1
       end) ∧
  ((∀ p, lstat_result env p = None) →
   (∀ p, readdir_result env p = None) →
   dpkg_source_result env (filepath_Join [tmpdir cfg; dscPath]) unpacked
     = inr tree →
   unpackAndIndex_body cfg env dscPath w = (w', Returned tt) →
   ∀ t' p n,
     trees w' !! unpacked = Some t' → entry_at unpacked t' p n →
     entry_ok cfg env index (trace w') p n).
Proof.
  intros pkg unpacked index stripLen fn. split_and!.
  - intros path entries w0 Hne Hign. unfold walk, fn, walkFn.
    destruct (filepath_Split path) as [d filename]; simpl in *.
    rewrite decide_True by done. rewrite Hign. simpl.
    unfold bind. by destruct (removeall_result env path).
  - intros path regular w0 Hne Hign. unfold walk, fn, walkFn.
    destruct (filepath_Split path) as [d filename]; simpl in *.
    rewrite decide_True by done. rewrite Hign. simpl.
    unfold bind. by destruct (remove_result env path).
  - intros path rel e0 w0 Hname Hvalid Hrel Hadd. unfold walk, fn, walkFn.
    assert (Hidx :
      (let* '(err, cur) :=
         walkFn_index env index stripLen path
           (Some (lstat_info (File true))) (Some (File true)) in
       match err with
       | WalkNil => ret (WalkNil, cur)
       | SkipDir =>
           if IsDir (lstat_info (File true)) then ret (WalkNil, cur)
           else ret (SkipDir, cur)
       end) w0 =
      match remove_result env path with
      | None =>
          (mkWorld (fs w0) (trees w0) (indexQueue w0)
             (trace w0 ++ [AddFile index path rel]), Returned (WalkNil, None))
      | Some e =>
          log_Fatalf "Could not remove file %q: %v\n" [ArgStr path; ArgErr e]
            (mkWorld (fs w0) (trees w0) (indexQueue w0)
               (trace w0 ++ [AddFile index path rel]))
      end).
    { unfold walkFn_index. simpl. rewrite Hvalid, Hrel. simpl.
      unfold bind, index_AddFile, emit; simpl. rewrite Hadd. simpl.
      by destruct (remove_result env path). }
    destruct (filepath_Split path) as [d filename]; simpl in *.
    destruct (decide (filename ≠ "")) as [Hne|Hne]; [|exact Hidx].
    destruct Hname as [->|Hname]; [done|]. by rewrite Hname.
  - apply unpackAndIndex_body_good.
Qed.

Lemma walk_removes_or_indexes_witness :
  let res := unpackAndIndex_body default_config sample_env "i3/i3.dsc"
               empty_world in
  entry_ok default_config sample_env "/tmp/dcs-importer1/i3.idx"
    (trace res.1) (filepath_Join ["/tmp/dcs-importer1/i3/i3"; "main.c"])
    (File true).
Proof.
  intros res.
  apply (proj2 (proj2 (proj2
           (walk_removes_or_indexes default_config sample_env "i3/i3.dsc"
              empty_world res.1 sample_tree)))
           ltac:(reflexivity) ltac:(reflexivity) ltac:(reflexivity)
           ltac:(vm_compute; reflexivity)
           (Dir [("main.c", File true); ("link", File false);
                 (latin1_name, File true)])).
  - vm_compute. reflexivity.
  - apply (entry_below _ _ "main.c" (File true)); [|apply entry_here].
    apply elem_of_cons. by left.
Defined.

(** C6, as stated: a regular file named [NEWS] in a
    directory whose name is not valid UTF-8 is removed, and nothing is
    logged. *)
Lemma invalid_utf8_ignored_file_not_logged :
  let path := "/tmp/dcs-importer1/i3/i3/" +:+ latin1_name +:+ "/NEWS" in
  utf8_ValidString path = false ∧
  walkFn default_config sample_env "/tmp/dcs-importer1/i3.idx" 21 path
    (Some regular_file_info) None (Some (File true)) empty_world =
    (empty_world, Returned (WalkNil, None)).
Proof. split; vm_compute; reflexivity. Qed.

(** C6, amended: a regular file whose path is not valid UTF-8 and whose
    base name is not an ignored file name is left where it is, the skip
    is logged and [AddFile] is not called; and whatever jobs a worker
    runs, every path it passes to [AddFile] is valid UTF-8. *)
Theorem invalid_utf8_path_never_indexed cfg env index stripLen path fi err cur w :
  IsRegular fi = true → IsDir fi = false →
  utf8_ValidString path = false →
  (filepath_Split path).2 = "" ∨
  map_index (ignoredFilenames cfg) (filepath_Split path).2 = false →
  walkFn cfg env index stripLen path (Some fi) err cur w =
    (mkWorld (fs w) (trees w) (indexQueue w)
       (trace w ++ [Printf "Skipping due to invalid UTF-8: %s\n" [ArgStr path]]),
     Returned (WalkNil, cur)) ∧
  ∀ jobs w' o,
    unpackAndIndex cfg env jobs w = (w', o) →
    ∃ evs, trace w' = trace w ++ evs ∧
           ∀ i p rel, AddFile i p rel ∈ evs → utf8_ValidString p = true.
Proof.
  intros Hreg Hdir Hbad Hname. split.
  - unfold walkFn.
    assert (Hidx : walkFn_index env index stripLen path (Some fi) cur w =
      (mkWorld (fs w) (trees w) (indexQueue w)
         (trace w ++
          [Printf "Skipping due to invalid UTF-8: %s\n" [ArgStr path]]),
       Returned (WalkNil, cur))).
    { unfold walkFn_index. by rewrite Hreg, Hbad. }
    destruct (filepath_Split path) as [d filename]; simpl in *.
    destruct (decide (filename ≠ "")) as [Hne|Hne]; [|exact Hidx].
    destruct Hname as [->|Hname]; [done|]. by rewrite Hdir, Hname.
  - intros jobs w' o Hrun.
    pose proof (unpackAndIndex_events cfg env jobs w) as Hwp.
    unfold wp in Hwp. rewrite Hrun in Hwp.
    assert (Hev : ∃ evs, trace w' = trace w ++ evs ∧
                         Forall (λ ev, ∀ i p rel, ev = AddFile i p rel →
                                       utf8_ValidString p = true) evs).
    { assert (Hw : ∀ ev, worker_event ev →
                ∀ i p rel, ev = AddFile i p rel → utf8_ValidString p = true)
        by (by intros ev H i p rel ->).
      destruct o as [[]|c|msg].
      - destruct Hwp as (evs & Ht & He). exists evs. split; [done|].
        eapply Forall_impl; [exact He|exact Hw].
      - destruct Hwp as (evs & format & p & e & Ht & He & _).
        exists (evs ++ [Fatal format [ArgStr p; ArgErr e]]).
        split; [done|]. apply Forall_app. split.
        + eapply Forall_impl; [exact He|exact Hw].
        + constructor; [|constructor]. intros; discriminate.
      - destruct Hwp as (evs & Ht & He). exists evs. split; [done|].
        eapply Forall_impl; [exact He|exact Hw]. }
    destruct Hev as (evs & Ht & Hev). exists evs. split; [done|].
    intros i p rel Hin. rewrite Forall_forall in Hev. by eapply Hev.
Qed.

Lemma invalid_utf8_path_never_indexed_witness :
  let path := "/tmp/dcs-importer1/i3/i3/" +:+ latin1_name in
  walkFn default_config sample_env "/tmp/dcs-importer1/i3.idx" 21 path
    (Some regular_file_info) None (Some (File true)) empty_world =
    (mkWorld ∅ ∅ []
       ([] ++ [Printf "Skipping due to invalid UTF-8: %s\n" [ArgStr path]]),
     Returned (WalkNil, Some (File true))) ∧
  ∀ jobs w' o,
    unpackAndIndex default_config sample_env jobs empty_world = (w', o) →
    ∃ evs, trace w' = [] ++ evs ∧
           ∀ i p rel, AddFile i p rel ∈ evs → utf8_ValidString p = true.
Proof.
  intros path.
  apply (invalid_utf8_path_never_indexed default_config sample_env
           "/tmp/dcs-importer1/i3.idx" 21 path regular_file_info None
           (Some (File true)) empty_world).
  - reflexivity.
  - reflexivity.
  - vm_compute. reflexivity.
  - right. vm_compute. reflexivity.
Defined.

(** C8: [main] fills the set of ignored suffixes from its flag, and
    neither the walk function nor the walk nor the worker depends on
    that set: with any other set in its place they are the same
    functions. *)
Theorem ignored_suffixes_never_consulted cfg env suffixes :
  (∀ fl w,
     match main_init env fl w with
     | (_, Returned c) =>
         ignoredSuffixes c = fill_set (ignoredSuffixesList fl) ∅
     | _ => True
     end) ∧
  (∀ index stripLen,
     walkFn (with_suffixes cfg suffixes) env index stripLen =
     walkFn cfg env index stripLen) ∧
  (∀ index stripLen,
     walk env (walkFn (with_suffixes cfg suffixes) env index stripLen) =
     walk env (walkFn cfg env index stripLen)) ∧
  (∀ dscPath,
     unpackAndIndex_body (with_suffixes cfg suffixes) env dscPath =
     unpackAndIndex_body cfg env dscPath) ∧
  (∀ jobs,
     unpackAndIndex (with_suffixes cfg suffixes) env jobs =
     unpackAndIndex cfg env jobs).
Proof.
  split_and!.
  - intros fl w. unfold main_init. by destruct (tempdir_result env).
  - reflexivity.
  - reflexivity.
  - reflexivity.
  - reflexivity.
Qed.

(** With the default flags, [txt] is an ignored suffix, and a file
    [notes.txt] is indexed all the same. *)
Example ignored_suffix_file_is_indexed :
  map_index (ignoredSuffixes default_config) "txt" = true ∧
  trace (unpackAndIndex default_config
           (quiet_env [] (Dir [("notes.txt", File true)]) 1)
           ["i3/i3.dsc"] empty_world).1 =
    [Printf "Unpacking %s\n" [ArgStr "i3"];
     Exec ["dpkg-source"; "--no-copy"; "--no-check"; "-x";
           "/tmp/dcs-importer1/i3/i3.dsc"; "/tmp/dcs-importer1/i3/i3"];
     IndexCreate "/tmp/dcs-importer1/i3.idx";
     AddFile "/tmp/dcs-importer1/i3.idx" "/tmp/dcs-importer1/i3/i3/notes.txt"
       "/i3/notes.txt";
     Flush "/tmp/dcs-importer1/i3.idx"].
Proof. split; vm_compute; reflexivity. Qed.

(** * Further properties *)

(** ** The counters of [varz] *)

Lemma uint64_range z : (0 ≤ uint64 z < 2 ^ 64)%Z.
Proof. unfold uint64. apply Z.mod_pos_bound. lia. Qed.

Lemma varz_run_in_range c counters :
  call_ok c → counters_in_range counters →
  counters_in_range (varz_run c counters).
Proof.
  intros Hc Hm key c' Hl.
  destruct c as [k|k|k v]; simpl in *;
    unfold varz_Increment, varz_Decrement, varz_Set in Hl;
    destruct (counters !! k) as [c0|] eqn:Hk;
    (destruct (decide (k = key)) as [->|Hne];
     [rewrite lookup_insert_eq in Hl; injection Hl as <-; simpl;
      first [apply uint64_range | lia]
     |rewrite lookup_insert_ne in Hl by done; by eapply Hm]).
Qed.

(** X1: from the empty map of the start of the process, whatever calls are
    made, every counter holds a value of the range of [uint64]. *)
Theorem varz_counters_stay_in_range calls :
  Forall call_ok calls →
  counters_in_range (varz_run_all calls ∅).
Proof.
  unfold varz_run_all. intros Hcalls.
  assert (Hgen : ∀ m, counters_in_range m →
            counters_in_range (fold_left (λ m c, varz_run c m) calls m)).
  { induction Hcalls as [|c calls Hc _ IH]; intros m Hm; simpl; [done|].
    apply IH. by apply varz_run_in_range. }
  apply Hgen. intros key c Hl. by rewrite lookup_empty in Hl.
Qed.

Lemma varz_counters_stay_in_range_witness :
  counters_in_range
    (varz_run_all [CallDecrement "queries"; CallDecrement "queries";
                   CallSet "shards" 6; CallIncrement "shards"] ∅).
Proof.
  apply varz_counters_stay_in_range.
  repeat constructor; simpl; lia.
Defined.

(** X2: on a counter that exists, [Increment] and [Decrement] undo each
    other, also across the ends of the range: 0 goes down to 2^64-1 and
    2^64-1 goes up to 0. *)
Theorem varz_increment_decrement_inverse key c counters :
  counters !! key = Some c → (0 ≤ value c < 2 ^ 64)%Z →
  varz_Decrement key (varz_Increment key counters) = counters ∧
  varz_Increment key (varz_Decrement key counters) = counters ∧
  (value c = 0%Z →
   varz_Decrement key counters !! key = Some (mkCounter (2 ^ 64 - 1))) ∧
  (value c = (2 ^ 64 - 1)%Z →
   varz_Increment key counters !! key = Some (mkCounter 0)).
Proof.
  intros Hk Hr. unfold varz_Decrement, varz_Increment. rewrite Hk.
  rewrite !lookup_insert_eq, !insert_insert_eq.
  unfold counter_Add, counter_Subtract, uint64. simpl.
  destruct c as [v]. simpl in *.
  assert (H1 : (((v + 1) mod 2 ^ 64 - 1) mod 2 ^ 64 = v)%Z).
  { destruct (decide (v = 2 ^ 64 - 1)%Z) as [->|Hne]; [done|].
    rewrite (Z.mod_small (v + 1)) by lia. rewrite Z.mod_small; lia. }
  assert (H2 : (((v - 1) mod 2 ^ 64 + 1) mod 2 ^ 64 = v)%Z).
  { destruct (decide (v = 0)%Z) as [->|Hne]; [done|].
    rewrite (Z.mod_small (v - 1)) by lia. rewrite Z.mod_small; lia. }
  rewrite H1, H2. split_and!.
  - by apply insert_id.
  - by apply insert_id.
  - by intros ->.
  - by intros ->.
Qed.

Lemma varz_increment_decrement_inverse_witness :
  let counters := <["queries" := mkCounter 0]> (∅ : gmap string counter) in
  varz_Decrement "queries" (varz_Increment "queries" counters) = counters ∧
  varz_Increment "queries" (varz_Decrement "queries" counters) = counters ∧
  (0%Z = 0%Z →
   varz_Decrement "queries" counters !! "queries"
     = Some (mkCounter (2 ^ 64 - 1))) ∧
  (0%Z = (2 ^ 64 - 1)%Z →
   varz_Increment "queries" counters !! "queries" = Some (mkCounter 0)).
Proof.
  intros counters.
  apply (varz_increment_decrement_inverse "queries" (mkCounter 0) counters).
  - reflexivity.
  - simpl. lia.
Defined.

(** X3: on a key that has no counter yet, [Decrement] does what [Increment]
    does: the counter starts at 1.  So a [Decrement] before the first
    [Increment] leaves 2 where the calls should cancel, and an
    [Increment] before the first [Decrement] leaves a counter at 0. *)
Theorem varz_decrement_missing_key key counters :
  counters !! key = None →
  varz_Decrement key counters = varz_Increment key counters ∧
  varz_Decrement key counters !! key = Some (mkCounter 1) ∧
  varz_Increment key (varz_Decrement key counters) !! key
    = Some (mkCounter 2) ∧
  varz_Decrement key (varz_Increment key counters) !! key
    = Some (mkCounter 0).
Proof.
  intros Hk. unfold varz_Decrement, varz_Increment. rewrite Hk.
  rewrite !lookup_insert_eq. cbn match. rewrite ?lookup_insert_eq. done.
Qed.

Lemma varz_decrement_missing_key_witness :
  varz_Decrement "queries" ∅ = varz_Increment "queries" ∅ ∧
  varz_Decrement "queries" ∅ !! "queries" = Some (mkCounter 1) ∧
  varz_Increment "queries" (varz_Decrement "queries" ∅) !! "queries"
    = Some (mkCounter 2) ∧
  varz_Decrement "queries" (varz_Increment "queries" ∅) !! "queries"
    = Some (mkCounter 0).
Proof. apply (varz_decrement_missing_key "queries" ∅). reflexivity. Defined.

Lemma varz_Increment_iter_present key counters n v :
  counters !! key = Some (mkCounter v) →
  Nat.iter n (varz_Increment key) counters !! key
    = Some (mkCounter (uint64 (v + Z.of_nat n))) ∨
  (n = 0 ∧ Nat.iter n (varz_Increment key) counters !! key
             = Some (mkCounter v)).
Proof.
  intros Hk. destruct n as [|n]; [by right|]. left.
  induction n as [|n IH].
  - simpl. unfold varz_Increment. rewrite Hk, lookup_insert_eq.
    unfold counter_Add. simpl. done.
  - change (Nat.iter (S (S n)) (varz_Increment key) counters) with
      (varz_Increment key (Nat.iter (S n) (varz_Increment key) counters)).
    unfold varz_Increment at 1. rewrite IH, lookup_insert_eq.
    unfold counter_Add, uint64. simpl. do 2 f_equal.
    rewrite Zplus_mod_idemp_l. f_equal. lia.
Qed.

(** X4: [n] calls of [Increment] on a key, [n] at least 1: a counter that
    held [v] holds [v + n] modulo 2^64, and a key without counter gets a
    counter that holds [n] modulo 2^64. *)
Theorem varz_increment_counts key counters n :
  1 ≤ n →
  Nat.iter n (varz_Increment key) counters !! key =
    Some (mkCounter
            (uint64 (match counters !! key with
                     | Some c => value c + Z.of_nat n
                     | None => Z.of_nat n
                     end))).
Proof.
  intros Hn. destruct (counters !! key) as [[v]|] eqn:Hk.
  - destruct (varz_Increment_iter_present key counters n v Hk)
      as [H|[-> _]]; [done|lia].
  - destruct n as [|n]; [lia|]. rewrite Nat.iter_succ_r.
    assert (Hk1 : varz_Increment key counters !! key = Some (mkCounter 1)).
    { unfold varz_Increment. by rewrite Hk, lookup_insert_eq. }
    destruct (varz_Increment_iter_present key _ n 1 Hk1) as [H|[-> H]].
    + rewrite H. do 3 f_equal. lia.
    + by rewrite H.
Qed.

Lemma varz_increment_counts_witness :
  Nat.iter 3 (varz_Increment "queries") ∅ !! "queries" =
    Some (mkCounter
            (uint64 (match (∅ : gmap string counter) !! "queries" with
                     | Some c => value c + Z.of_nat 3
                     | None => Z.of_nat 3
                     end))).
Proof. apply (varz_increment_counts "queries" ∅ 3). lia. Defined.

Lemma varz_run_lookup_ne c counters key :
  call_key c ≠ key → varz_run c counters !! key = counters !! key.
Proof.
  intros Hne. destruct c as [k|k|k v]; simpl in *;
    unfold varz_Increment, varz_Decrement, varz_Set;
    destruct (counters !! k); by rewrite lookup_insert_ne.
Qed.

Lemma varz_run_lookup_eq c counters counters' :
  counters !! call_key c = counters' !! call_key c →
  varz_run c counters !! call_key c = varz_run c counters' !! call_key c.
Proof.
  intros Heq. destruct c as [k|k|k v]; simpl in *;
    unfold varz_Increment, varz_Decrement, varz_Set;
    rewrite <- Heq; destruct (counters !! k);
    by rewrite !lookup_insert_eq.
Qed.

(** X5: a call changes the counter of its key only, and calls on different
    keys can be made in either order. *)
Theorem varz_calls_on_other_keys c1 c2 counters :
  call_key c1 ≠ call_key c2 →
  (∀ key, key ≠ call_key c1 →
          varz_run c1 counters !! key = counters !! key) ∧
  varz_run c1 (varz_run c2 counters) = varz_run c2 (varz_run c1 counters).
Proof.
  intros Hne. split.
  - intros key Hk. by apply varz_run_lookup_ne.
  - apply map_eq. intros key.
    destruct (decide (key = call_key c1)) as [->|H1].
    + rewrite (varz_run_lookup_ne c2 (varz_run c1 counters)) by done.
      apply varz_run_lookup_eq. by apply varz_run_lookup_ne.
    + rewrite (varz_run_lookup_ne c1) by done.
      destruct (decide (key = call_key c2)) as [->|H2].
      * symmetry. apply varz_run_lookup_eq. by apply varz_run_lookup_ne.
      * by rewrite !varz_run_lookup_ne by done.
Qed.

Lemma varz_calls_on_other_keys_witness :
  let counters := <["queries" := mkCounter 7]> (∅ : gmap string counter) in
  (∀ key, key ≠ "queries" →
          varz_run (CallDecrement "queries") counters !! key
            = counters !! key) ∧
  varz_run (CallDecrement "queries") (varz_run (CallSet "shards" 6) counters)
    = varz_run (CallSet "shards" 6)
        (varz_run (CallDecrement "queries") counters).
Proof.
  intros counters.
  apply (varz_calls_on_other_keys (CallDecrement "queries")
           (CallSet "shards" 6) counters).
  simpl. discriminate.
Defined.

(** X6: after [Set] the counter holds the value set, whatever it held and
    whatever call on the key came before; and no call ever removes a
    counter. *)
Theorem varz_set_overrides key v c counters :
  varz_Set key v counters !! key = Some (mkCounter v) ∧
  (call_key c = key →
   varz_Set key v (varz_run c counters) = varz_Set key v counters) ∧
  (∀ k, is_Some (counters !! k) → is_Some (varz_run c counters !! k)) ∧
  is_Some (varz_run c counters !! call_key c).
Proof.
  split_and!.
  - unfold varz_Set. destruct (counters !! key); by rewrite lookup_insert_eq.
  - intros <-. apply map_eq. intros k.
    assert (Hs : ∀ m, varz_Set (call_key c) v m =
                      <[call_key c := mkCounter v]> m).
    { intros m. unfold varz_Set. by destruct (m !! call_key c). }
    rewrite !Hs. destruct (decide (k = call_key c)) as [->|Hne].
    + by rewrite !lookup_insert_eq.
    + rewrite !lookup_insert_ne by done. by apply varz_run_lookup_ne.
  - intros k Hk. destruct (decide (k = call_key c)) as [->|Hne].
    + destruct c as [k0|k0|k0 v0]; simpl in *;
        unfold varz_Increment, varz_Decrement, varz_Set;
        destruct (counters !! k0); by rewrite lookup_insert_eq.
    + by rewrite varz_run_lookup_ne.
  - destruct c as [k0|k0|k0 v0]; simpl in *;
      unfold varz_Increment, varz_Decrement, varz_Set;
      destruct (counters !! k0); by rewrite lookup_insert_eq.
Qed.

(** ** What a worker indexes *)

Lemma wp_seq {A B} (R : World → World → Prop) (m : M A) (k : A → M B) w
    (Q : World → A → Prop) (Q' : World → B → Prop) :
  (∀ w1 w2 w3, R w1 w2 → R w2 w3 → R w1 w3) →
  wp m w (λ w' a, R w w' ∧ Q w' a) (R w) (R w) →
  (∀ a w', R w w' → Q w' a →
           wp (k a) w' (λ w'' b, R w' w'' ∧ Q' w'' b) (R w') (R w')) →
  wp (bind m k) w (λ w'' b, R w w'' ∧ Q' w'' b) (R w) (R w).
Proof.
  intros Htrans Hm Hk. apply wp_bind.
  eapply wp_mono; [exact Hm| |done|done].
  intros w' a [HR HQ]. simpl.
  eapply wp_mono; [by apply Hk|..]; simpl.
  - intros w'' b [HR' HQ']. eauto.
  - eauto.
  - eauto.
Qed.

Lemma call_rel_refl cfg index stripLen path info w :
  call_rel cfg index stripLen path info w w.
Proof. exists []. by rewrite app_nil_r. Qed.

Lemma call_rel_fatal cfg index stripLen path info w format args :
  call_rel cfg index stripLen path info w
    (mkWorld (fs w) (trees w) (indexQueue w) (trace w ++ [Fatal format args])).
Proof. exists [Fatal format args]. split; [done|]. by repeat constructor. Qed.

Lemma walkFn_index_call cfg env index stripLen path info cur w :
  not_ignored (ignoredFilenames cfg) path →
  wp (walkFn_index env index stripLen path info cur) w
    (λ w' r, call_rel cfg index stripLen path info w w' ∧
             (∀ fi, info = Some fi → IsRegular fi = false → r.2 = cur))
    (call_rel cfg index stripLen path info w)
    (call_rel cfg index stripLen path info w).
Proof.
  intros Hni. unfold walkFn_index.
  destruct info as [fi|]; [|apply wp_ret; split; [apply call_rel_refl|done]].
  destruct (IsRegular fi) eqn:Hreg; simpl;
    [|apply wp_ret; split; [apply call_rel_refl|done]].
  destruct (utf8_ValidString path) eqn:Hv; simpl.
  - destruct (slice_from path stripLen) as [rel|] eqn:Hs;
      [|apply call_rel_refl].
    assert (Hev : call_event cfg index stripLen path (Some fi)
                    (AddFile index path rel)) by (simpl; eauto 10).
    unfold wp, bind, index_AddFile, emit; simpl.
    destruct (addfile_result env path) as [e0|]; simpl.
    + destruct (os_Remove env path cur) as [[e|] cur'] eqn:Hrm; simpl.
      * exists [AddFile index path rel; Fatal "Could not remove file %q: %v\n"
                                          [ArgStr path; ArgErr e]].
        split; [by rewrite <- app_assoc|].
        constructor; [exact Hev|]. by repeat constructor.
      * split; [|by intros fi0 [= <-] ?; congruence]. exists [AddFile index path rel].
        split; [done|]. constructor; [exact Hev|]. constructor.
    + split; [|by intros fi0 [= <-] ?; congruence]. exists [AddFile index path rel].
      split; [done|]. constructor; [exact Hev|]. constructor.
  - unfold wp, bind, log_Printf, emit; simpl.
    split; [|by intros fi0 [= <-] ?; congruence].
    exists [Printf "Skipping due to invalid UTF-8: %s\n" [ArgStr path]].
    split; [done|]. by repeat constructor.
Qed.

(** One call of the walk function: what it may pass to [AddFile], and
    what its answer says about a directory that is still there. *)
Lemma walkFn_call cfg env index stripLen path info err cur w :
  wp (walkFn cfg env index stripLen path info err cur) w
    (λ w' r, call_rel cfg index stripLen path info w w' ∧
             (r.1 = WalkNil → is_Some r.2 →
              ∀ fi, info = Some fi → IsRegular fi = false →
                    not_ignored (ignoredDirnames cfg) path ∨ IsDir fi = false) ∧
             (r.1 = WalkNil → is_Some r.2 →
              ∀ fi, info = Some fi → IsRegular fi = false →
                    not_ignored (ignoredFilenames cfg) path))
    (call_rel cfg index stripLen path info w)
    (call_rel cfg index stripLen path info w).
Proof.
  unfold walkFn.
  destruct (filepath_Split path) as [d filename] eqn:Hsp.
  assert (Hfn : (filepath_Split path).2 = filename) by by rewrite Hsp.
  assert (Hindex :
    not_ignored (ignoredFilenames cfg) path →
    (∀ fi, info = Some fi →
           not_ignored (ignoredDirnames cfg) path ∨ IsDir fi = false) →
    wp (walkFn_index env index stripLen path info cur) w
      (λ w' r, call_rel cfg index stripLen path info w w' ∧
               (r.1 = WalkNil → is_Some r.2 →
                ∀ fi, info = Some fi → IsRegular fi = false →
                      not_ignored (ignoredDirnames cfg) path ∨
                      IsDir fi = false) ∧
               (r.1 = WalkNil → is_Some r.2 →
                ∀ fi, info = Some fi → IsRegular fi = false →
                      not_ignored (ignoredFilenames cfg) path))
      (call_rel cfg index stripLen path info w)
      (call_rel cfg index stripLen path info w)).
  { intros Hf Hd.
    eapply wp_mono; [by apply (walkFn_index_call cfg)| |done|done].
    intros w' r [Hc Hr]. split; [done|]. split; eauto. }
  destruct (decide (filename ≠ "")) as [Hne|He].
  - destruct info as [fi|]; [|apply call_rel_refl].
    destruct (IsDir fi && map_index (ignoredDirnames cfg) filename) eqn:Hdn.
    { destruct (os_RemoveAll env path cur) as [[e|] cur'];
        [apply call_rel_fatal|].
      apply wp_ret. split; [apply call_rel_refl|]. by split. }
    destruct (map_index (ignoredFilenames cfg) filename) eqn:Hif.
    + unfold os_Remove.
      destruct cur as [[regular|[|e0 es]]|];
        try apply call_rel_fatal;
        destruct (remove_result env path); try apply call_rel_fatal;
        apply wp_ret; (split; [apply call_rel_refl|]);
        split; simpl; by intros _ [? [=]].
    + apply Hindex.
      * right. by rewrite Hfn.
      * intros fi0 [= <-]. apply andb_false_iff in Hdn as [Hdn|Hdn]; [by right|].
        left. right. by rewrite Hfn.
  - assert (filename = "") as ->
      by (destruct (decide (filename = "")); [done|by destruct He]).
    apply Hindex.
    + by left.
    + intros fi _. left. by left.
Qed.

Section Soundness.
Context (cfg : Config) (env : Env) (index : string) (stripLen : nat).

Lemma sound_rel_refl root t w : sound_rel cfg index stripLen root t w w.
Proof. exists []. by rewrite app_nil_r. Qed.

Lemma sound_rel_trans root t w1 w2 w3 :
  sound_rel cfg index stripLen root t w1 w2 →
  sound_rel cfg index stripLen root t w2 w3 →
  sound_rel cfg index stripLen root t w1 w3.
Proof.
  intros (evs1 & Ht1 & He1) (evs2 & Ht2 & He2).
  exists (evs1 ++ evs2). rewrite Ht2, Ht1, <- app_assoc.
  split; [done|by apply Forall_app].
Qed.

(** A call on the entry itself. *)
Lemma call_rel_here path n w w' :
  call_rel cfg index stripLen path (Some (lstat_info n)) w w' →
  sound_rel cfg index stripLen path n w w'.
Proof.
  intros (evs & Ht & He). exists evs. split; [done|].
  eapply Forall_impl; [exact He|]. intros [] Hev; try done.
  destruct Hev as (-> & -> & (fi & [= <-] & Hreg) & Hni & Hv & Hs).
  simpl. split_and!; try done.
  destruct n as [[]|]; try done. constructor.
Qed.

(** A call without [info], or on something that is no regular file,
    indexes nothing. *)
Lemma call_rel_nothing path info root t w w' :
  (∀ fi, info = Some fi → IsRegular fi = false) →
  call_rel cfg index stripLen path info w w' →
  sound_rel cfg index stripLen root t w w'.
Proof.
  intros Hinfo (evs & Ht & He). exists evs. split; [done|].
  eapply Forall_impl; [exact He|]. intros [] Hev; try done.
  destruct Hev as (_ & _ & (fi & Hfi & Hreg) & _).
  specialize (Hinfo fi Hfi). congruence.
Qed.

Lemma sound_rel_below root entries name child w w' :
  not_ignored (ignoredDirnames cfg) root →
  not_ignored (ignoredFilenames cfg) root →
  (name, child) ∈ entries →
  sound_rel cfg index stripLen (filepath_Join [root; name]) child w w' →
  sound_rel cfg index stripLen root (Dir entries) w w'.
Proof.
  intros Hd Hf Hin (evs & Ht & He). exists evs. split; [done|].
  eapply Forall_impl; [exact He|]. intros [] Hev; try done.
  destruct Hev as (-> & Hw & Hrest). split; [done|]. split; [|done].
  by eapply walked_below.
Qed.

Lemma visit_sound path entries es :
  not_ignored (ignoredDirnames cfg) path →
  not_ignored (ignoredFilenames cfg) path →
  (∀ e, e ∈ es → e ∈ entries) →
  Forall (λ e, ∀ p w,
            wp (walk env (walkFn cfg env index stripLen) p e.2) w
              (λ w' _, sound_rel cfg index stripLen p e.2 w w')
              (sound_rel cfg index stripLen p e.2 w)
              (sound_rel cfg index stripLen p e.2 w)) es →
  ∀ w, wp (visit env (walkFn cfg env index stripLen)
             (walk env (walkFn cfg env index stripLen)) path es) w
         (λ w' _, sound_rel cfg index stripLen path (Dir entries) w w' ∧ True)
         (sound_rel cfg index stripLen path (Dir entries) w)
         (sound_rel cfg index stripLen path (Dir entries) w).
Proof.
  intros Hd Hf Hsub Hall. revert Hsub.
  induction Hall as [|[name child] rest Hc _ IH]; intros Hsub w; simpl.
  - apply wp_ret. split; [apply sound_rel_refl|done].
  - assert (Hin : (name, child) ∈ entries) by (apply Hsub; left).
    assert (Hrest : ∀ e, e ∈ rest → e ∈ entries)
      by (intros e He; apply Hsub; by right).
    destruct (lstat_result env _).
    + apply (wp_seq _ _ _ _ (λ _ _, True)); [apply sound_rel_trans|..].
      * eapply wp_mono; [apply walkFn_call|..]; simpl.
        -- intros w' r [Hcall _]. split; [|done].
           eapply call_rel_nothing; [|exact Hcall]; done.
        -- intros w' Hcall. eapply call_rel_nothing; [|exact Hcall]; done.
        -- intros w' Hcall. eapply call_rel_nothing; [|exact Hcall]; done.
      * intros [_ cur] w1 _ _.
        apply (wp_seq _ _ _ _ (λ _ _, True)); [apply sound_rel_trans|..].
        -- by apply IH.
        -- intros [err rest'] w2 _ _. apply wp_ret.
           split; [apply sound_rel_refl|done].
    + apply (wp_seq _ _ _ _ (λ _ _, True)); [apply sound_rel_trans|..].
      * eapply wp_mono; [apply Hc|..]; simpl.
        -- intros w' r Hs. split; [|done]. by eapply sound_rel_below.
        -- intros w'. by apply sound_rel_below.
        -- intros w'. by apply sound_rel_below.
      * intros [err cur] w1 _ _.
        destruct err, (IsDir (lstat_info child));
          first [ apply wp_ret; split; [apply sound_rel_refl|done]
                | apply (wp_seq _ _ _ _ (λ _ _, True));
                  [apply sound_rel_trans|by apply IH|];
                  intros [err rest'] w2 _ _; apply wp_ret;
                  split; [apply sound_rel_refl|done] ].
Qed.

Lemma walk_sound n :
  ∀ path w,
    wp (walk env (walkFn cfg env index stripLen) path n) w
      (λ w' _, sound_rel cfg index stripLen path n w w')
      (sound_rel cfg index stripLen path n w)
      (sound_rel cfg index stripLen path n w).
Proof.
  induction n as [regular|entries IH] using node_induction; intros path w.
  - cbn [walk].
    eapply wp_mono with (Q := λ w' b, _ ∧ True); [|by intros ? ? []|done|done].
    apply (wp_seq _ _ _ _ (λ _ _, True)); [apply sound_rel_trans|..].
    + eapply wp_mono; [apply walkFn_call|..]; simpl.
      * intros w' r [Hcall _]. split; [|done]. by apply (call_rel_here _ (File regular)).
      * intros w'. apply (call_rel_here _ (File regular)).
      * intros w'. apply (call_rel_here _ (File regular)).
    + intros [[] cur] w1 _ _; apply wp_ret;
        (split; [apply sound_rel_refl|done]).
  - cbn [walk].
    eapply wp_mono with (Q := λ w' b, _ ∧ True); [|by intros ? ? []|done|done].
    apply (wp_seq _ _ _ _
             (λ _ r, r.1 = WalkNil → is_Some r.2 →
                     not_ignored (ignoredDirnames cfg) path ∧
                     not_ignored (ignoredFilenames cfg) path));
      [apply sound_rel_trans|..].
    + eapply wp_mono; [apply walkFn_call|..]; simpl.
      * intros w' r (Hcall & Hdn & Hfn). split; [by apply (call_rel_here _ (Dir entries))|].
        intros Hnil Hsome. split.
        -- by destruct (Hdn Hnil Hsome _ eq_refl eq_refl).
        -- by apply (Hfn Hnil Hsome _ eq_refl).
      * intros w'. apply (call_rel_here _ (Dir entries)).
      * intros w'. apply (call_rel_here _ (Dir entries)).
    + intros [[] cur] w1 _ Hni; simpl in Hni.
      * destruct cur as [c|].
        -- destruct (Hni eq_refl (mk_is_Some _ _ eq_refl)) as [Hd Hf].
           destruct (readdir_result env path).
           ++ eapply wp_mono; [apply walkFn_call|..]; simpl.
              ** intros w' r [Hcall _]. split; [|done].
                 by apply (call_rel_here _ (Dir entries)).
              ** intros w'. apply (call_rel_here _ (Dir entries)).
              ** intros w'. apply (call_rel_here _ (Dir entries)).
           ++ apply (wp_seq _ _ _ _ (λ _ _, True)); [apply sound_rel_trans|..].
              ** by apply visit_sound.
              ** intros [err entries'] w2 _ _. apply wp_ret.
                 split; [apply sound_rel_refl|done].
        -- eapply wp_mono; [apply walkFn_call|..]; simpl.
           ++ intros w' r [Hcall _]. split; [|done]. by apply (call_rel_here _ (Dir entries)).
           ++ intros w'. apply (call_rel_here _ (Dir entries)).
           ++ intros w'. apply (call_rel_here _ (Dir entries)).
      * simpl. apply wp_ret. split; [apply sound_rel_refl|done].
Qed.
End Soundness.

(** ** What a job leaves *)

Lemma store_rel_refl env index w : store_rel env index w w.
Proof.
  exists []. rewrite !app_nil_r. split_and!; try done.
  intros docs Hd. by rewrite app_nil_r.
Qed.

Lemma store_rel_trans env index w1 w2 w3 :
  store_rel env index w1 w2 → store_rel env index w2 w3 →
  store_rel env index w1 w3.
Proof.
  intros (evs1 & Ht1 & Hc1 & Htr1 & Hq1 & Hf1)
         (evs2 & Ht2 & Hc2 & Htr2 & Hq2 & Hf2).
  exists (evs1 ++ evs2). rewrite Ht2, Ht1, <- app_assoc.
  split_and!; [done| |congruence|congruence|].
  - intros docs Hd. unfold accepted. rewrite omap_app, app_assoc.
    apply Hc2. by apply Hc1.
  - intros p Hp. by rewrite Hf2, Hf1.
Qed.

Lemma store_rel_fatal env index w format args :
  store_rel env index w
    (mkWorld (fs w) (trees w) (indexQueue w) (trace w ++ [Fatal format args])).
Proof.
  exists [Fatal format args]. split_and!; try done.
  intros docs Hd. simpl. by rewrite app_nil_r.
Qed.

Lemma walkFn_index_store env index stripLen path info cur w :
  wp (walkFn_index env index stripLen path info cur) w
    (λ w' _, store_rel env index w w')
    (store_rel env index w) (store_rel env index w).
Proof.
  unfold walkFn_index.
  destruct info as [fi|]; [|apply wp_ret, store_rel_refl].
  destruct (IsRegular fi); simpl; [|apply wp_ret, store_rel_refl].
  destruct (utf8_ValidString path); simpl.
  - destruct (slice_from path stripLen) as [rel|]; [|apply store_rel_refl].
    unfold wp, bind, index_AddFile, emit; simpl.
    destruct (addfile_result env path) as [e0|] eqn:Hadd; simpl.
    + destruct (os_Remove env path cur) as [[e|] cur'] eqn:Hrm; simpl.
      * exists [AddFile index path rel;
                Fatal "Could not remove file %q: %v\n" [ArgStr path; ArgErr e]].
        split_and!; try done; [by rewrite <- app_assoc|].
        intros docs Hd. simpl. rewrite Hadd. by rewrite app_nil_r.
      * exists [AddFile index path rel]. split_and!; try done.
        intros docs Hd. simpl. rewrite Hadd. by rewrite app_nil_r.
    + exists [AddFile index path rel]. cbn [fs trace trees indexQueue].
      split_and!; try done.
      * intros docs Hd. simpl. rewrite Hadd.
        by rewrite lookup_alter_eq, Hd.
      * intros p Hp. by rewrite lookup_alter_ne.
  - unfold wp, bind, log_Printf, emit; simpl.
    exists [Printf "Skipping due to invalid UTF-8: %s\n" [ArgStr path]].
    split_and!; try done. intros docs Hd. simpl. by rewrite app_nil_r.
Qed.

Lemma walkFn_store cfg env index stripLen path info err cur w :
  wp (walkFn cfg env index stripLen path info err cur) w
    (λ w' _, store_rel env index w w')
    (store_rel env index w) (store_rel env index w).
Proof.
  unfold walkFn. destruct (filepath_Split path) as [d filename].
  destruct (decide (filename ≠ "")); [|apply walkFn_index_store].
  destruct info as [fi|]; [|apply store_rel_refl].
  destruct (IsDir fi && map_index (ignoredDirnames cfg) filename).
  { destruct (os_RemoveAll env path cur) as [[e|] cur'];
      [apply store_rel_fatal|apply wp_ret, store_rel_refl]. }
  destruct (map_index (ignoredFilenames cfg) filename);
    [|apply walkFn_index_store].
  destruct (os_Remove env path cur) as [[e|] cur'];
    [apply store_rel_fatal|apply wp_ret, store_rel_refl].
Qed.

Lemma walk_store cfg env index stripLen path n w :
  wp (walk env (walkFn cfg env index stripLen) path n) w
    (λ w' _, store_rel env index w w')
    (store_rel env index w) (store_rel env index w).
Proof.
  apply walk_preserves;
    eauto using store_rel_refl, store_rel_trans, walkFn_store.
Qed.

Lemma accepted_snoc_fatal env evs format args :
  accepted env (evs ++ [Fatal format args]) = accepted env evs.
Proof. unfold accepted. rewrite omap_app. simpl. by rewrite app_nil_r. Qed.

(** The end of a job, after the walk [m] of the tree at [root]. *)
Lemma walk_then_flush cfg env index stripLen root tree
    (m : M (walk_error * option node)) w :
  fs w !! index = Some (IndexData []) →
  wp m w (λ w' _, walk_returns index w w')
    (walk_exits env index w) (walk_panics index w) →
  wp m w (λ w' _, sound_rel cfg index stripLen root tree w w')
    (sound_rel cfg index stripLen root tree w)
    (sound_rel cfg index stripLen root tree w) →
  wp m w (λ w' _, store_rel env index w w')
    (store_rel env index w) (store_rel env index w) →
  ∃ w' o evs,
    ((let* '(err, cur) := m in put_tree root cur ;;; ret err) ;;;
     index_Flush index) w = (w', o) ∧
    Forall (walk_event index) evs ∧
    Forall (indexed_soundly cfg index stripLen root tree) evs ∧
    indexQueue w' = indexQueue w ∧
    (∀ r, r ≠ root → trees w' !! r = trees w !! r) ∧
    fs w' = <[index := IndexData (accepted env evs)]> (fs w) ∧
    match o with
    | Returned _ => trace w' = trace w ++ evs ++ [Flush index]
    | Exited _ =>
        ∃ format p e,
          trace w' = trace w ++ evs ++ [Fatal format [ArgStr p; ArgErr e]] ∧
          deletion_failed env format p e
    | Panicked _ => trace w' = trace w ++ evs
    end.
Proof.
  intros Hidx Hev Hsound Hstore.
  assert (Hfs : ∀ w' evs,
            fs w' !! index = Some (IndexData ([] ++ accepted env evs)) →
            (∀ p, p ≠ index → fs w' !! p = fs w !! p) →
            fs w' = <[index := IndexData (accepted env evs)]> (fs w)).
  { intros w' evs Hi Ho. apply map_eq. intros p.
    destruct (decide (p = index)) as [->|Hne].
    - by rewrite lookup_insert_eq.
    - rewrite lookup_insert_ne by done. by apply Ho. }
  unfold bind, wp in *.
  destruct (m w) as [w1 [[err cur]|c|msg]].
  - destruct Hev as (evs & Ht & Hwe & _).
    destruct Hsound as (evs1 & Ht1 & Hs).
    destruct Hstore as (evs2 & Ht2 & Hc & Htr & Hq & Hf).
    rewrite Ht in Ht1, Ht2.
    apply app_inv_head in Ht1 as <-. apply app_inv_head in Ht2 as <-.
    unfold put_tree, bind, get_trees, set_trees, index_Flush, emit, ret;
      simpl.
    eexists _, _, evs. split; [done|]. cbn [fs trees indexQueue trace].
    split_and!; try done.
    + intros r Hr. rewrite Htr. destruct cur.
      * by rewrite lookup_insert_ne.
      * by rewrite lookup_delete_ne.
    + apply Hfs; [by apply Hc|done].
    + by rewrite Ht, <- app_assoc.
  - destruct Hev as (evs & format & p & e & Ht & Hwe & Hdf).
    destruct Hsound as (evs1 & Ht1 & Hs).
    destruct Hstore as (evs2 & Ht2 & Hc & Htr & Hq & Hf).
    rewrite Ht in Ht1, Ht2.
    apply app_inv_head in Ht1 as <-. apply app_inv_head in Ht2 as <-.
    eexists _, _, evs. split; [done|].
    split_and!; try done.
    + by apply Forall_app in Hs as [Hs _].
    + by rewrite Htr.
    + apply Hfs; [|done]. specialize (Hc _ Hidx).
      by rewrite accepted_snoc_fatal in Hc.
    + by exists format, p, e.
  - destruct Hev as (evs & Ht & Hwe).
    destruct Hsound as (evs1 & Ht1 & Hs).
    destruct Hstore as (evs2 & Ht2 & Hc & Htr & Hq & Hf).
    rewrite Ht in Ht1, Ht2.
    apply app_inv_head in Ht1 as <-. apply app_inv_head in Ht2 as <-.
    eexists _, _, evs. split; [done|].
    split_and!; try done.
    + by rewrite Htr.
    + apply Hfs; [by apply Hc|done].
Qed.

(** A job whose package unpacks to [tree], whatever its outcome. *)
Lemma unpackAndIndex_body_inv cfg env dscPath w tree :
  let pkg := filepath_Dir dscPath in
  let unpacked := filepath_Join [tmpdir cfg; pkg; pkg] in
  let index := filepath_Join [tmpdir cfg; pkg +:+ ".idx"] in
  let stripLen := String.length (filepath_Join [tmpdir cfg; pkg]) in
  dpkg_source_result env (filepath_Join [tmpdir cfg; dscPath]) unpacked
    = inr tree →
  ∃ w' o evs,
    unpackAndIndex_body cfg env dscPath w = (w', o) ∧
    Forall (walk_event index) evs ∧
    Forall (indexed_soundly cfg index stripLen unpacked tree) evs ∧
    indexQueue w' = indexQueue w ∧
    (∀ r, r ≠ unpacked → trees w' !! r = trees w !! r) ∧
    fs w' = <[index := IndexData (accepted env evs)]> (fs w) ∧
    match o with
    | Returned _ =>
        trace w' = trace w ++ job_start cfg dscPath ++ evs ++ [Flush index]
    | Exited _ =>
        ∃ format p e,
          trace w' = trace w ++ job_start cfg dscPath ++ evs ++
                     [Fatal format [ArgStr p; ArgErr e]] ∧
          deletion_failed env format p e
    | Panicked _ => trace w' = trace w ++ job_start cfg dscPath ++ evs
    end.
Proof.
  intros pkg unpacked index stripLen Hdpkg.
  unfold unpackAndIndex_body, run_dpkg_source, index_Create.
  fold pkg. fold unpacked. rewrite Hdpkg. fold index. fold stripLen.
  unfold log_Printf.
  set (w3 := mkWorld (<[index := IndexData []]> (fs w))
               (<[unpacked := tree]> (trees w)) (indexQueue w)
               (trace w ++ job_start cfg dscPath)).
  assert (Hidx : fs w3 !! index = Some (IndexData []))
    by (simpl; by rewrite lookup_insert_eq).
  assert (Hm : ∃ m,
    filepath_Walk env unpacked (walkFn cfg env index stripLen) w3 =
    (let* '(err, cur) := m in put_tree unpacked cur ;;; ret err) w3 ∧
    wp m w3 (λ w' _, walk_returns index w3 w')
      (walk_exits env index w3) (walk_panics index w3) ∧
    wp m w3 (λ w' _, sound_rel cfg index stripLen unpacked tree w3 w')
      (sound_rel cfg index stripLen unpacked tree w3)
      (sound_rel cfg index stripLen unpacked tree w3) ∧
    wp m w3 (λ w' _, store_rel env index w3 w')
      (store_rel env index w3) (store_rel env index w3)).
  { unfold filepath_Walk. unfold bind at 1, get_trees at 1.
    cbn [trees w3]. rewrite lookup_insert_eq.
    destruct (lstat_result env unpacked) as [e|].
    - eexists. split; [reflexivity|].
      split_and!; [apply walkFn_events| |apply walkFn_store].
      eapply wp_mono; [apply walkFn_call|..]; simpl.
      + intros w' r [Hcall _].
        eapply call_rel_nothing; [|exact Hcall]; done.
      + intros w' Hcall. eapply call_rel_nothing; [|exact Hcall]; done.
      + intros w' Hcall. eapply call_rel_nothing; [|exact Hcall]; done.
    - eexists. split; [reflexivity|].
      split_and!; [apply walk_events|apply walk_sound|apply walk_store]. }
  destruct Hm as (m & Hwalk & Hev & Hsound & Hstore).
  destruct (walk_then_flush cfg env index stripLen unpacked tree m w3
              Hidx Hev Hsound Hstore)
    as (w' & o & evs & Hrun & Hwe & Hs & Hq & Htr & Hfs & Ho).
  exists w', o, evs.
  split.
  { rewrite <- Hrun.
    cbv beta iota zeta delta [bind emit get_trees set_trees get_fs set_fs ret].
    cbn [fs trees indexQueue trace]. rewrite <- !app_assoc.
    change (filepath_Walk env unpacked (walkFn cfg env index stripLen) _)
      with (filepath_Walk env unpacked (walkFn cfg env index stripLen) w3).
    rewrite Hwalk.
    cbv beta iota zeta delta [bind]. reflexivity. }
  split_and!; try done.
  - intros r Hr. rewrite Htr by done. simpl. by rewrite lookup_insert_ne.
  - rewrite Hfs. simpl. by rewrite insert_insert_eq.
  - destruct o as [a|c|msg]; simpl in Ho.
    + by rewrite Ho, <- app_assoc.
    + destruct Ho as (format & p & e & Ht & Hdf). exists format, p, e.
      by rewrite Ht, <- app_assoc.
    + by rewrite Ho, <- app_assoc.
Qed.

(** X7: a job that returns after its package unpacked leaves this trace:
    the note, the call of the unpack tool, the creation of the index,
    the events of the walk, then the one [Flush].  The index file holds
    exactly the documents of the calls of [AddFile] that reported no
    error, in the order of the calls; no other file changes, nothing is
    queued, and among the unpacked trees only the one of the package
    changes. *)
Theorem returned_job_builds_index cfg env dscPath w w' tree :
  let pkg := filepath_Dir dscPath in
  let unpacked := filepath_Join [tmpdir cfg; pkg; pkg] in
  let index := filepath_Join [tmpdir cfg; pkg +:+ ".idx"] in
  dpkg_source_result env (filepath_Join [tmpdir cfg; dscPath]) unpacked
    = inr tree →
  unpackAndIndex_body cfg env dscPath w = (w', Returned tt) →
  ∃ evs,
    trace w' = trace w ++ job_start cfg dscPath ++ evs ++ [Flush index] ∧
    Forall (walk_event index) evs ∧
    fs w' = <[index := IndexData (accepted env evs)]> (fs w) ∧
    indexQueue w' = indexQueue w ∧
    ∀ r, r ≠ unpacked → trees w' !! r = trees w !! r.
Proof.
  intros pkg unpacked index Hdpkg Hrun.
  destruct (unpackAndIndex_body_inv cfg env dscPath w tree Hdpkg)
    as (w1 & o & evs & Hrun1 & Hwe & _ & Hq & Htr & Hfs & Ho).
  rewrite Hrun in Hrun1. injection Hrun1 as <- <-.
  exists evs. by split_and!.
Qed.

Lemma returned_job_builds_index_witness :
  let w' := (unpackAndIndex_body default_config sample_env "i3/i3.dsc"
               empty_world).1 in
  let index := filepath_Join ["/tmp/dcs-importer1"; "i3" +:+ ".idx"] in
  ∃ evs,
    trace w' = [] ++ job_start default_config "i3/i3.dsc" ++ evs ++
               [Flush index] ∧
    Forall (walk_event index) evs ∧
    fs w' = <[index := IndexData (accepted sample_env evs)]> ∅ ∧
    indexQueue w' = [] ∧
    ∀ r, r ≠ filepath_Join ["/tmp/dcs-importer1"; "i3"; "i3"] →
         trees w' !! r = (∅ : gmap string node) !! r.
Proof.
  intros w' index.
  apply (returned_job_builds_index default_config sample_env "i3/i3.dsc"
           empty_world w' sample_tree).
  - reflexivity.
  - vm_compute. reflexivity.
Defined.

(** X8: a job that ends the process has created its index and never
    flushes it: its trace ends with the report of the removal that
    failed, the index holds the documents accepted so far, and the jobs
    behind it are never started. *)
Theorem fatal_job_stops_worker cfg env dscPath jobs w w' c :
  let pkg := filepath_Dir dscPath in
  let unpacked := filepath_Join [tmpdir cfg; pkg; pkg] in
  let index := filepath_Join [tmpdir cfg; pkg +:+ ".idx"] in
  unpackAndIndex_body cfg env dscPath w = (w', Exited c) →
  unpackAndIndex cfg env (dscPath :: jobs) w = (w', Exited c) ∧
  ∃ tree evs format p e,
    dpkg_source_result env (filepath_Join [tmpdir cfg; dscPath]) unpacked
      = inr tree ∧
    trace w' = trace w ++ job_start cfg dscPath ++ evs ++
               [Fatal format [ArgStr p; ArgErr e]] ∧
    Forall (walk_event index) evs ∧
    deletion_failed env format p e ∧
    fs w' = <[index := IndexData (accepted env evs)]> (fs w).
Proof.
  intros pkg unpacked index Hrun. split.
  { cbn [unpackAndIndex]. unfold bind. by rewrite Hrun. }
  destruct (dpkg_source_result env (filepath_Join [tmpdir cfg; dscPath])
              unpacked) as [e0|tree] eqn:Hdpkg.
  { exfalso. revert Hrun.
    unfold unpackAndIndex_body, run_dpkg_source. fold pkg. fold unpacked.
    rewrite Hdpkg.
    cbv beta iota zeta delta [bind emit log_Printf ret]. discriminate. }
  destruct (unpackAndIndex_body_inv cfg env dscPath w tree Hdpkg)
    as (w1 & o & evs & Hrun1 & Hwe & _ & Hq & Htr & Hfs & Ho).
  rewrite Hrun in Hrun1. injection Hrun1 as <- <-.
  destruct Ho as (format & p & e & Ht & Hdf).
  exists tree, evs, format, p, e. by split_and!.
Qed.

Lemma fatal_job_stops_worker_witness :
  let w' := (unpackAndIndex_body default_config undeletable_env "i3/i3.dsc"
               empty_world).1 in
  let unpacked := filepath_Join ["/tmp/dcs-importer1"; "i3"; "i3"] in
  let index := filepath_Join ["/tmp/dcs-importer1"; "i3" +:+ ".idx"] in
  unpackAndIndex default_config undeletable_env
    ["i3/i3.dsc"; "dunst/dunst.dsc"] empty_world = (w', Exited 1) ∧
  ∃ tree evs format p e,
    dpkg_source_result undeletable_env
      (filepath_Join ["/tmp/dcs-importer1"; "i3/i3.dsc"]) unpacked
      = inr tree ∧
    trace w' = [] ++ job_start default_config "i3/i3.dsc" ++ evs ++
               [Fatal format [ArgStr p; ArgErr e]] ∧
    Forall (walk_event index) evs ∧
    deletion_failed undeletable_env format p e ∧
    fs w' = <[index := IndexData (accepted undeletable_env evs)]> ∅.
Proof.
  intros w' unpacked index.
  apply (fatal_job_stops_worker default_config undeletable_env "i3/i3.dsc"
           ["dunst/dunst.dsc"] empty_world w' 1).
  vm_compute. reflexivity.
Defined.

(** X9: whatever a job does and however it ends, every call of [AddFile] it
    makes is on a regular file of the tree the package unpacked to,
    reached below directories whose names are on neither list of
    ignored names; the name of the file is not an ignored file name, its
    path is valid UTF-8, and the document is named by the path without
    the bytes of the staging directory of the package. *)
Theorem indexed_files_come_from_tree cfg env dscPath w :
  let pkg := filepath_Dir dscPath in
  let unpacked := filepath_Join [tmpdir cfg; pkg; pkg] in
  let index := filepath_Join [tmpdir cfg; pkg +:+ ".idx"] in
  let stripLen := String.length (filepath_Join [tmpdir cfg; pkg]) in
  let w' := (unpackAndIndex_body cfg env dscPath w).1 in
  ∃ evs,
    trace w' = trace w ++ evs ∧
    ∀ i p rel,
      AddFile i p rel ∈ evs →
      ∃ tree,
        dpkg_source_result env (filepath_Join [tmpdir cfg; dscPath]) unpacked
          = inr tree ∧
        i = index ∧
        walked cfg unpacked tree p (File true) ∧
        not_ignored (ignoredFilenames cfg) p ∧
        utf8_ValidString p = true ∧
        slice_from p stripLen = Some rel.
Proof.
  intros pkg unpacked index stripLen w'.
  destruct (dpkg_source_result env (filepath_Join [tmpdir cfg; dscPath])
              unpacked) as [e0|tree] eqn:Hdpkg.
  { exists [Printf "Unpacking %s\n" [ArgStr pkg];
            Exec ["dpkg-source"; "--no-copy"; "--no-check"; "-x";
                  filepath_Join [tmpdir cfg; dscPath]; unpacked];
            Printf "Skipping package %s: %v\n" [ArgStr pkg; ArgErr e0]].
    split.
    - unfold w', unpackAndIndex_body, run_dpkg_source.
      fold pkg. fold unpacked. rewrite Hdpkg.
      cbv beta iota zeta delta [bind emit log_Printf ret].
      cbn [fst trace]. by rewrite <- !app_assoc.
    - intros i p rel Hin. exfalso.
      repeat (apply elem_of_cons in Hin as [Hin|Hin]; [discriminate|]).
      by apply elem_of_nil in Hin. }
  destruct (unpackAndIndex_body_inv cfg env dscPath w tree Hdpkg)
    as (w1 & o & evs & Hrun1 & _ & Hs & _ & _ & _ & Ho).
  assert (Hw' : w' = w1) by (unfold w'; by rewrite Hrun1).
  rewrite Hw'.
  assert (Hsound : ∀ tl i p rel,
            AddFile i p rel ∈ job_start cfg dscPath ++ evs ++ tl →
            (∀ i p rel, AddFile i p rel ∉ tl) →
            ∃ tree0, @inr error node tree = inr tree0 ∧ i = index ∧
              walked cfg unpacked tree0 p (File true) ∧
              not_ignored (ignoredFilenames cfg) p ∧
              utf8_ValidString p = true ∧
              slice_from p stripLen = Some rel).
  { intros tl i p rel Hin Htl. exists tree. split; [done|].
    apply elem_of_app in Hin as [Hin|Hin].
    { exfalso. unfold job_start in Hin.
      repeat (apply elem_of_cons in Hin as [Hin|Hin]; [discriminate|]).
      by apply elem_of_nil in Hin. }
    apply elem_of_app in Hin as [Hin|Hin]; [|by destruct (Htl i p rel)].
    rewrite Forall_forall in Hs. exact (Hs _ Hin). }
  destruct o as [a|c|msg].
  - eexists. split; [exact Ho|]. intros i p rel Hin.
    apply (Hsound _ _ _ _ Hin). intros i0 p0 rel0 Hx.
    apply elem_of_cons in Hx as [Hx|Hx]; [discriminate|].
    by apply elem_of_nil in Hx.
  - destruct Ho as (format & p0 & e & Ht & _).
    eexists. split; [exact Ht|]. intros i p rel Hin.
    apply (Hsound _ _ _ _ Hin). intros i0 p1 rel0 Hx.
    apply elem_of_cons in Hx as [Hx|Hx]; [discriminate|].
    by apply elem_of_nil in Hx.
  - exists (job_start cfg dscPath ++ evs ++ []). rewrite app_nil_r.
    split; [exact Ho|]. intros i p rel Hin.
    apply (Hsound [] i p rel); [by rewrite app_nil_r|].
    intros i0 p1 rel0 Hx. by apply elem_of_nil in Hx.
Qed.

Lemma walk_Dir env fn path entries :
  walk env fn path (Dir entries) =
  let* '(err, cur) :=
    fn path (Some (lstat_info (Dir entries))) None (Some (Dir entries)) in
  match err with
  | SkipDir => ret (WalkNil, cur)
  | WalkNil =>
      match (match cur with
             | None => Some ENOENT
             | Some _ => readdir_result env path
             end) with
      | Some e => fn path (Some (lstat_info (Dir entries))) (Some e) cur
      | None =>
          let* '(err, entries') := visit env fn (walk env fn) path entries in
          ret (err, Some (Dir entries'))
      end
  end.
Proof. reflexivity. Qed.

(** X10: a directory whose name is on the list of ignored file names, and
    not on the list of ignored directory names, ends the process: the
    walk function calls [os.Remove] on it, which fails on a directory
    that has entries; an empty directory is removed, but then cannot be
    listed, the walk function is called again and its second
    [os.Remove] fails. *)
Theorem directory_named_like_ignored_file_is_fatal
    cfg env index stripLen path entries w :
  (filepath_Split path).2 ≠ "" →
  map_index (ignoredFilenames cfg) (filepath_Split path).2 = true →
  map_index (ignoredDirnames cfg) (filepath_Split path).2 = false →
  ∃ e,
    walk env (walkFn cfg env index stripLen) path (Dir entries) w =
      (mkWorld (fs w) (trees w) (indexQueue w)
         (trace w ++ [Fatal "Could not remove file %q: %v\n"
                        [ArgStr path; ArgErr e]]),
       Exited 1) ∧
    (entries ≠ [] → e = ENOTEMPTY) ∧
    (entries = [] → remove_result env path = None → e = ENOENT).
Proof.
  intros Hne Hif Hid.
  assert (Hfn : ∀ cur,
    walkFn cfg env index stripLen path (Some (lstat_info (Dir entries)))
      None cur =
    match os_Remove env path cur with
    | (Some e, _) =>
        log_Fatalf "Could not remove file %q: %v\n" [ArgStr path; ArgErr e]
    | (None, cur') => ret (WalkNil, cur')
    end).
  { intros cur. unfold walkFn.
    destruct (filepath_Split path) as [d filename]. simpl in Hne, Hif, Hid.
    destruct (decide (filename ≠ "")); [|done].
    cbn [lstat_info IsDir]. by rewrite Hid, Hif. }
  assert (Hfn' : ∀ err cur,
    walkFn cfg env index stripLen path (Some (lstat_info (Dir entries)))
      err cur =
    walkFn cfg env index stripLen path (Some (lstat_info (Dir entries)))
      None cur) by done.
  rewrite walk_Dir, Hfn. unfold os_Remove at 1.
  destruct entries as [|e0 es].
  - destruct (remove_result env path) as [e|] eqn:Hrm.
    + exists e. split; [done|]. split; [done|]. done.
    + exists ENOENT. split; [|done].
      unfold bind, ret. cbn [lstat_info]. rewrite Hfn', Hfn. done.
  - exists ENOTEMPTY. split; [done|]. split; [done|]. done.
Qed.

Lemma directory_named_like_ignored_file_is_fatal_witness :
  ∃ e,
    walk sample_env
      (walkFn default_config sample_env "/tmp/dcs-importer1/i3.idx" 21)
      "/tmp/dcs-importer1/i3/i3/LICENSE" (Dir [("MIT", File true)])
      empty_world =
      (mkWorld ∅ ∅ []
         ([] ++ [Fatal "Could not remove file %q: %v\n"
                   [ArgStr "/tmp/dcs-importer1/i3/i3/LICENSE"; ArgErr e]]),
       Exited 1) ∧
    ([("MIT", File true)] ≠ [] → e = ENOTEMPTY) ∧
    ([("MIT", File true)] = [] →
     remove_result sample_env "/tmp/dcs-importer1/i3/i3/LICENSE" = None →
     e = ENOENT).
Proof.
  apply (directory_named_like_ignored_file_is_fatal default_config
           sample_env "/tmp/dcs-importer1/i3.idx" 21
           "/tmp/dcs-importer1/i3/i3/LICENSE" [("MIT", File true)]
           empty_world).
  - vm_compute. discriminate.
  - vm_compute. reflexivity.
  - vm_compute. reflexivity.
Defined.

(** ** The lists of ignored names *)

Lemma fill_fold_lookup (l : list string) (m : gmap string bool) k :
  fold_left (λ m entry, <[entry := true]> m) l m !! k =
  if decide (k ∈ l) then Some true else m !! k.
Proof.
  revert m. induction l as [|x l IH]; intros m; simpl.
  - destruct (decide (k ∈ [])) as [Hin|_]; [by apply elem_of_nil in Hin|done].
  - rewrite IH. destruct (decide (k ∈ l)) as [Hl|Hl].
    + rewrite decide_True; [done|]. apply elem_of_cons. by right.
    + destruct (decide (k = x)) as [->|Hne].
      * rewrite lookup_insert_eq. rewrite decide_True; [done|].
        apply elem_of_cons. by left.
      * rewrite lookup_insert_ne by done. rewrite decide_False; [done|].
        intros [?|?]%elem_of_cons; done.
Qed.

Lemma split_on_not_nil sep s : split_on sep s ≠ [].
Proof.
  destruct s as [|c s]; simpl; [done|].
  destruct (decide (c = sep)); [done|]. by destruct (split_on sep s).
Qed.

Lemma split_on_no_sep sep s k a b :
  k ∈ split_on sep s → k ≠ a +:+ String sep b.
Proof.
  revert k a. induction s as [|c s IH]; intros k a; simpl.
  - intros ->%list_elem_of_singleton. by destruct a.
  - destruct (decide (c = sep)) as [->|Hne].
    + intros [->|Hin]%elem_of_cons; [by destruct a|by apply IH].
    + pose proof (split_on_not_nil sep s) as Hnil.
      destruct (split_on sep s) as [|x xs] eqn:Hsp; [done|].
      intros [->|Hin]%elem_of_cons.
      * destruct a as [|c' a'].
        -- change ("" +:+ String sep b) with (String sep b). congruence.
        -- rewrite app_String. intros [= _ Hx]. revert Hx. apply IH. by left.
      * apply IH. by right.
Qed.

Lemma strings_Join_String c x xs sep :
  strings_Join (String c x :: xs) sep = String c (strings_Join (x :: xs) sep).
Proof. by destruct xs. Qed.

Lemma strings_Join_split_on sep s :
  strings_Join (split_on sep s) (String sep "") = s.
Proof.
  induction s as [|c s IH]; simpl; [done|].
  destruct (decide (c = sep)) as [->|Hne].
  - rewrite strings_Join_cons by apply split_on_not_nil. simpl. by rewrite IH.
  - pose proof (split_on_not_nil sep s) as Hnil.
    destruct (split_on sep s) as [|x xs]; [done|].
    by rewrite strings_Join_String, IH.
Qed.

(** X11: a name is on a list of ignored names exactly when it is one of the
    pieces between the commas of the flag.  No piece contains a comma,
    and the pieces joined by commas give the flag back. *)
Theorem ignored_names_are_the_pieces_of_the_flag list k :
  (map_index (fill_set list ∅) k = true ↔ k ∈ strings_Split_comma list) ∧
  (map_index (fill_set list ∅) k = true → ∀ a b, k ≠ a +:+ "," +:+ b) ∧
  strings_Join (strings_Split_comma list) "," = list.
Proof.
  assert (Hiff : map_index (fill_set list ∅) k = true ↔
                 k ∈ strings_Split_comma list).
  { unfold map_index, fill_set. rewrite fill_fold_lookup.
    destruct (decide (k ∈ strings_Split_comma list)); simpl; [done|].
    rewrite lookup_empty. simpl. split; [done|]. done. }
  split_and!; [done| |apply strings_Join_split_on].
  intros Hk%Hiff a b. exact (split_on_no_sep "," list k a b Hk).
Qed.

(** ** Extensionality of the walk *)

Lemma bind_ext {A B} (m m' : M A) (k k' : A → M B) w :
  m w = m' w → (∀ a w1, k a w1 = k' a w1) → bind m k w = bind m' k' w.
Proof.
  intros Hm Hk. unfold bind. rewrite Hm.
  destruct (m' w) as [w1 [a|c|msg]]; [apply Hk|done|done].
Qed.

Section WalkExt.
Context (env : Env).
Context (fn fn' : string → option FileInfo → option error → option node →
                  M (walk_error * option node)).
Hypothesis fn_ext : ∀ path info err cur w,
  fn path info err cur w = fn' path info err cur w.

Lemma visit_ext rec rec' path es :
  Forall (λ e, ∀ p w, rec p e.2 w = rec' p e.2 w) es →
  ∀ w, visit env fn rec path es w = visit env fn' rec' path es w.
Proof.
  induction 1 as [|[name child] rest Hc _ IH]; intros w; simpl; [done|].
  destruct (lstat_result env _).
  - apply bind_ext; [apply fn_ext|]. intros [_ cur] w1.
    apply bind_ext; [apply IH|]. by intros [err rest'] w2.
  - apply bind_ext; [apply Hc|]. intros [err cur] w1.
    destruct err, (IsDir (lstat_info child)); try done;
      (apply bind_ext; [apply IH|]; by intros [err rest'] w2).
Qed.

Lemma walk_ext n :
  ∀ path w, walk env fn path n w = walk env fn' path n w.
Proof.
  induction n as [regular|entries IH] using node_induction; intros path w.
  - simpl. apply bind_ext; [apply fn_ext|]. by intros [[] cur] w1.
  - rewrite !walk_Dir. apply bind_ext; [apply fn_ext|].
    intros [[] cur] w1; [|done].
    destruct (match cur with
              | Some _ => readdir_result env path
              | None => Some ENOENT
              end); [apply fn_ext|].
    apply bind_ext; [by apply visit_ext|]. by intros [err entries'] w2.
Qed.
End WalkExt.

(** X12: the empty name that an empty flag, a comma at an end of a flag or
    two commas in a row put on the lists is never looked up: the walk
    function, and so the whole job, behaves the same under two
    configurations whose lists agree on all other names. *)
Theorem empty_name_on_the_lists_never_matters cfg cfg' env :
  tmpdir cfg' = tmpdir cfg →
  (∀ k, k ≠ "" → map_index (ignoredDirnames cfg') k
                 = map_index (ignoredDirnames cfg) k) →
  (∀ k, k ≠ "" → map_index (ignoredFilenames cfg') k
                 = map_index (ignoredFilenames cfg) k) →
  (∀ index stripLen path info err cur,
     walkFn cfg' env index stripLen path info err cur =
     walkFn cfg env index stripLen path info err cur) ∧
  (∀ dscPath w,
     unpackAndIndex_body cfg' env dscPath w =
     unpackAndIndex_body cfg env dscPath w).
Proof.
  intros Htmp Hd Hf.
  assert (Hfn : ∀ index stripLen path info err cur,
            walkFn cfg' env index stripLen path info err cur =
            walkFn cfg env index stripLen path info err cur).
  { intros index stripLen path info err cur. unfold walkFn.
    destruct (filepath_Split path) as [d filename].
    destruct (decide (filename ≠ "")) as [Hne|]; [|done].
    by rewrite Hd, Hf. }
  split; [exact Hfn|]. intros dscPath w.
  unfold unpackAndIndex_body. rewrite Htmp.
  apply bind_ext; [done|]. intros _ w1.
  apply bind_ext; [done|]. intros [e|] w2; [done|].
  apply bind_ext; [done|]. intros index w3.
  apply bind_ext; [|done].
  unfold filepath_Walk. apply bind_ext; [done|]. intros t w4.
  destruct (t !! _).
  - destruct (lstat_result env _).
    + apply bind_ext; [by rewrite Hfn|]. by intros [err cur] w5.
    + apply bind_ext; [|by intros [err cur] w5].
      apply walk_ext. intros. by rewrite Hfn.
  - apply bind_ext; [by rewrite Hfn|]. by intros [err cur] w5.
Qed.

Lemma empty_name_on_the_lists_never_matters_witness :
  (∀ index stripLen path info err cur,
     walkFn empty_flags_config sample_env index stripLen path info err cur =
     walkFn bare_config sample_env index stripLen path info err cur) ∧
  (∀ dscPath w,
     unpackAndIndex_body empty_flags_config sample_env dscPath w =
     unpackAndIndex_body bare_config sample_env dscPath w).
Proof.
  apply (empty_name_on_the_lists_never_matters bare_config
           empty_flags_config sample_env).
  - reflexivity.
  - intros k Hk. unfold map_index. simpl.
    change (fill_set "" ∅) with (<["" := true]> (∅ : gmap string bool)).
    by rewrite lookup_insert_ne.
  - intros k Hk. unfold map_index. simpl.
    change (fill_set "" ∅) with (<["" := true]> (∅ : gmap string bool)).
    by rewrite lookup_insert_ne.
Defined.

(** ** Uploads *)

Lemma importPackage_inv cfg env r w path :
  slice_from (URL_Path r) (String.length "/import/") = Some path →
  let target := filepath_Join [tmpdir cfg; path] in
  ∃ w' resp,
    importPackage cfg env r w = (w', Returned resp) ∧
    trees w' = trees w ∧
    ((status resp = StatusInternalServerError ∧
      indexQueue w' = indexQueue w ∧ trace w' = trace w ∧
      (fs w' = fs w ∨
       ∃ n e, copy_result env target = Some (n, e) ∧
              fs w' = <[target := Bytes (string_take n (Body r))]> (fs w))) ∨
     (status resp = StatusOK ∧
      fs w' = <[target := Bytes (Body r)]> (fs w))).
Proof.
  intros Hpath target. unfold importPackage. rewrite Hpath. fold target.
  unfold bind, os_Mkdir, os_Create, io_Copy, get_fs, set_fs, ret,
    log_Printf, emit, send.
  destruct (mkdir_result env _) as [e|]; [destruct (IsExist e)|]; simpl;
    try (eexists _, _; split; [reflexivity|]; split; [done|]; left;
         by split_and!; [..|left]);
    (destruct (create_result env _) as [e1|]; simpl;
       [eexists _, _; split; [reflexivity|]; split; [done|]; left;
        by split_and!; [..|left]|]);
    (destruct (copy_result env _) as [[n e2]|] eqn:Hcp; simpl;
       [eexists _, _; split; [reflexivity|]; split; [done|]; left;
        split_and!; [done..|]; right; exists n, e2;
        by rewrite insert_insert_eq|]);
    destruct (strings_HasSuffix (filepath_Base path) ".dsc"); simpl;
    eexists _, _; (split; [reflexivity|]); simpl;
    (split; [done|]); right; by rewrite insert_insert_eq.
Qed.

(** X13: an upload touches no file but its own and no unpacked tree.  When
    it answers 200 the file holds the whole body.  When it answers 500
    nothing is queued or logged, and the file is either as before or,
    when the copy stopped after [n] bytes, holds the first [n] bytes of
    the body in place of what it held. *)
Theorem upload_changes_one_file cfg env r w path :
  slice_from (URL_Path r) (String.length "/import/") = Some path →
  let target := filepath_Join [tmpdir cfg; path] in
  ∃ w' resp,
    importPackage cfg env r w = (w', Returned resp) ∧
    trees w' = trees w ∧
    (∀ p, p ≠ target → fs w' !! p = fs w !! p) ∧
    (status resp = StatusOK ∨ status resp = StatusInternalServerError) ∧
    (status resp = StatusOK → fs w' !! target = Some (Bytes (Body r))) ∧
    (status resp = StatusInternalServerError →
     indexQueue w' = indexQueue w ∧ trace w' = trace w ∧
     (fs w' !! target = fs w !! target ∨
      ∃ n e, copy_result env target = Some (n, e) ∧
             fs w' !! target = Some (Bytes (string_take n (Body r))))).
Proof.
  intros Hpath target.
  destruct (importPackage_inv cfg env r w path Hpath)
    as (w' & resp & Hrun & Htr & Hcases).
  exists w', resp. fold target in Hcases.
  split; [done|]. split; [done|].
  destruct Hcases as [(Hst & Hq & Ht & Hfs)|(Hst & Hfs)].
  - split_and!.
    + intros p Hp. destruct Hfs as [->|(n & e & _ & ->)]; [done|].
      by rewrite lookup_insert_ne.
    + by right.
    + rewrite Hst. discriminate.
    + intros _. split_and!; try done.
      destruct Hfs as [->|(n & e & Hcp & ->)]; [by left|right].
      exists n, e. by rewrite lookup_insert_eq.
  - split_and!.
    + intros p Hp. rewrite Hfs. by rewrite lookup_insert_ne.
    + by left.
    + intros _. by rewrite Hfs, lookup_insert_eq.
    + rewrite Hst. discriminate.
Qed.

Lemma upload_changes_one_file_witness :
  let r := mkRequest "/import/i3/i3.dsc" "Format: 3.0" in
  let w := mkWorld (<["/tmp/dcs-importer1/i3/i3.dsc" := Bytes "old"]> ∅)
             ∅ [] [] in
  let target := filepath_Join ["/tmp/dcs-importer1"; "i3/i3.dsc"] in
  ∃ w' resp,
    importPackage default_config (short_copy_env 6) r w
      = (w', Returned resp) ∧
    trees w' = ∅ ∧
    (∀ p, p ≠ target → fs w' !! p = fs w !! p) ∧
    (status resp = StatusOK ∨ status resp = StatusInternalServerError) ∧
    (status resp = StatusOK → fs w' !! target = Some (Bytes "Format: 3.0")) ∧
    (status resp = StatusInternalServerError →
     indexQueue w' = [] ∧ trace w' = [] ∧
     (fs w' !! target = fs w !! target ∨
      ∃ n e, copy_result (short_copy_env 6) target = Some (n, e) ∧
             fs w' !! target = Some (Bytes (string_take n "Format: 3.0")))).
Proof.
  intros r w target.
  apply (upload_changes_one_file default_config (short_copy_env 6) r w
           "i3/i3.dsc").
  reflexivity.
Defined.

(** X14: uploads served one after the other all end with a response, and
    the queue receives the paths of the stored descriptors in the order
    of their uploads: nothing for an upload that failed or for a file
    that is no descriptor, and one job for every upload of a
    descriptor, also when the same descriptor is uploaded again. *)
Theorem uploads_queue_in_order cfg runs w :
  Forall (λ run, String.length "/import/" ≤ String.length (URL_Path run.2))
    runs →
  ∃ w' resps,
    serve_imports cfg runs w = (w', Returned resps) ∧
    length resps = length runs ∧
    indexQueue w' = indexQueue w ++ concat (map (queued_by cfg) runs) ∧
    trees w' = trees w.
Proof.
  intros Hruns. revert w.
  induction Hruns as [|[env r] runs Hlen _ IH]; intros w.
  - exists w, []. simpl. by rewrite app_nil_r.
  - assert (Hpath : ∃ path, slice_from (URL_Path r) (String.length "/import/")
                            = Some path).
    { unfold slice_from. simpl in Hlen. rewrite decide_True by done. eauto. }
    destruct Hpath as [path Hpath].
    destruct (importPackage_spec cfg env r w path Hpath)
      as (w1 & resp & Hrun & Htr & Hspec).
    destruct (IH w1) as (w2 & resps & Hrest & Hl & Hq & Htr2).
    exists w2, (resp :: resps).
    cbn [serve_imports]. unfold bind at 1. rewrite Hrun.
    unfold bind at 1. rewrite Hrest. split; [done|].
    split; [by rewrite !length_cons, Hl|]. split; [|congruence].
    rewrite Hq. cbn [map concat]. unfold queued_by at 2. cbn [fst snd].
    rewrite Hpath, app_assoc. f_equal.
    destruct (upload_error cfg env path).
    + destruct Hspec as (_ & -> & _). by rewrite app_nil_r.
    + by destruct Hspec as (_ & _ & -> & _).
Qed.

Lemma uploads_queue_in_order_witness :
  let runs :=
    [(quiet_env [] (Dir []) 1,
      mkRequest "/import/i3/i3.orig.tar.gz" "tarball");
     (quiet_env [] (Dir []) 1, mkRequest "/import/i3/i3.dsc" "Format: 3.0");
     (read_only_env [], mkRequest "/import/dunst/dunst.dsc" "Format: 3.0");
     (quiet_env [] (Dir []) 1, mkRequest "/import/i3/i3.dsc" "Format: 3.0")] in
  ∃ w' resps,
    serve_imports default_config runs empty_world = (w', Returned resps) ∧
    length resps = length runs ∧
    indexQueue w' = [] ++ concat (map (queued_by default_config) runs) ∧
    trees w' = ∅.
Proof.
  intros runs. apply (uploads_queue_in_order default_config runs empty_world).
  repeat constructor; simpl; lia.
Defined.

(** ** What merges leave on disk *)

Lemma keeps_refl cfg w : keeps cfg w w.
Proof. split_and!; try done. intros p d Hp. by left. Qed.

Lemma keeps_trace cfg w w' tr :
  keeps cfg w w' →
  keeps cfg w (mkWorld (fs w') (trees w') (indexQueue w') tr).
Proof. by intros (Ht & Hq & Hf). Qed.


Lemma keeps_insert_fresh cfg w w3 tmp d tr :
  keeps cfg w w3 → fs w !! tmp = None →
  keeps cfg w (mkWorld (<[tmp := d]> (fs w3)) (trees w3) (indexQueue w3) tr).
Proof.
  intros (Ht & Hq & Hf) Hfr. split_and!; try done.
  intros p d' Hp. simpl.
  assert (p ≠ tmp) by (intros ->; congruence).
  rewrite lookup_insert_ne by done. by apply Hf.
Qed.

Lemma keeps_fatal cfg w w1 e :
  keeps cfg w w1 → keeps cfg w (@log_Fatal Response e w1).1.
Proof. by intros (Ht & Hq & Hf). Qed.

(** One merge request, however it ends, removes no file and changes
    none but the profile. *)
Lemma mergeToShard_keeps_run cfg env r w w' o :
  mergeToShard cfg env r w = (w', o) → keeps cfg w w'.
Proof.
  unfold mergeToShard.
  destruct (os_Open env _) as [e|] eqn:Hopen.
  { intros [= <- <-]. apply keeps_trace, keeps_refl. }
  destruct (readdirnames_result env _) as [e|names] eqn:Hread.
  { intros [= <- <-]. apply keeps_trace, keeps_refl. }
  assert (Hup : unpackedPath (flags cfg) ≠ "").
  { intros Heq. unfold os_Open in Hopen. by rewrite Heq in Hopen. }
  unfold bind at 1, log_Printf, emit; simpl.
  destruct (decide (length (select_index_files cfg names) = 1)) as [H1|H1].
  { intros [= <- <-]. apply keeps_trace, keeps_refl. }
  unfold bind at 1.
  set (w1 := mkWorld _ _ _ _).
  pose proof (ioutil_TempFile_spec env (unpackedPath (flags cfg))
                "newshard" w1 Hup) as Htmp.
  destruct (ioutil_TempFile env _ _ w1) as [w2 [[e|tmp]|c|msg]] eqn:Htf;
    [|..|done|done].
  { subst w2. intros [= <- <-]. apply keeps_trace, keeps_refl. }
  destruct Htmp as (Hfresh & _ & ->). simpl in Hfresh.
  destruct (decide (cpuProfile (flags cfg) ≠ "")) as [Hp|Hp].
  - unfold bind at 1. unfold bind at 1. unfold os_Create.
    destruct (create_result env (cpuProfile (flags cfg))) as [e|] eqn:Hc.
    { intros [= <- <-]. simpl. split_and!; try done.
      intros p d Hd. left. simpl.
      rewrite lookup_insert_ne; [done|]. intros <-. congruence. }
    intros [= <- <-]. simpl. split_and!; try done.
    intros p d Hd. simpl.
    assert (tmp ≠ p) by (intros <-; congruence).
    rewrite lookup_insert_ne by done.
    destruct (decide (cpuProfile (flags cfg) = p)) as [<-|Hne].
    + right. by rewrite lookup_insert_eq.
    + left. by rewrite !lookup_insert_ne by done.
  - intros [= <- <-]. simpl. split_and!; try done.
    intros p d Hd. left. simpl.
    assert (tmp ≠ p) by (intros <-; congruence).
    by rewrite !lookup_insert_ne by done.
Qed.

Lemma mergeToShard_keeps cfg env r w :
  keeps cfg w (mergeToShard cfg env r w).1.
Proof.
  destruct (mergeToShard cfg env r w) as [w' o] eqn:Hrun.
  by eapply mergeToShard_keeps_run.
Qed.

Lemma concat_dsts_app tr tr' :
  concat_dsts (tr ++ tr') = concat_dsts tr ++ concat_dsts tr'.
Proof. apply omap_app. Qed.

Lemma concat_dsts_none evs :
  Forall (λ ev, is_ConcatN ev = false) evs → concat_dsts evs = [].
Proof.
  induction 1 as [|ev evs Hev _ IH]; [done|].
  destruct ev; try done; exact IH.
Qed.

Lemma concat_dsts_profile_start cfg : concat_dsts (profile_start cfg) = [].
Proof. unfold profile_start. by destruct (decide _). Qed.

Lemma concat_dsts_profile_stop cfg : concat_dsts (profile_stop cfg) = [].
Proof. unfold profile_stop. by destruct (decide _). Qed.

(** The outputs of one merge request: none, or one file that did not
    exist before the request and exists after it. *)
Lemma mergeToShard_dsts cfg env r w :
  ∃ evs,
    trace (mergeToShard cfg env r w).1 = trace w ++ evs ∧
    (concat_dsts evs = [] ∨
     ∃ tmp, concat_dsts evs = [tmp] ∧ fs w !! tmp = None ∧
            is_Some (fs (mergeToShard cfg env r w).1 !! tmp)).
Proof.
  destruct (mergeToShard cfg env r w) as [w' o] eqn:Hrun.
  destruct (mergeToShard_inv cfg env r w w' o Hrun)
    as [(e & pre & _ & Ht & Hpre & _)
       |[(names & _ & _ & _ & ->)
        |(names & r0 & _ & _ & _ & Hfresh & ->)]]; simpl.
  - eexists. split; [exact Ht|]. left.
    rewrite concat_dsts_app, (concat_dsts_none pre Hpre). done.
  - eexists. split; [done|]. by left.
  - set (tmp := filepath_Join
                  [unpackedPath (flags cfg); "newshard" +:+ nextSuffix r0]).
    exists ([Printf "Got %d index files\n"
               [ArgInt (length (select_index_files cfg names))]] ++
            profile_start cfg ++
            [ConcatN tmp (select_index_files cfg names);
             Printf "merged in %v\n" [ArgDuration];
             Printf "merged into shard %s\n" [ArgStr tmp]] ++
            profile_stop cfg).
    split; [done|]. right. exists tmp. split_and!; [|exact Hfresh|].
    + rewrite !concat_dsts_app, concat_dsts_profile_start,
        concat_dsts_profile_stop. done.
    + by rewrite lookup_insert_eq.
Qed.

Lemma serve_merges_cons cfg env r rest w :
  (serve_merges cfg ((env, r) :: rest) w).1 =
  match mergeToShard cfg env r w with
  | (w1, Returned _) => (serve_merges cfg rest w1).1
  | (w1, _) => w1
  end.
Proof.
  cbn [serve_merges]. unfold bind.
  by destruct (mergeToShard cfg env r w) as [w1 [a|c|msg]].
Qed.


(** X16: merge requests served one after the other never write two merged
    shards to the same file: the outputs of the calls of [ConcatN] are
    pairwise different. *)
Theorem merges_never_reuse_an_output cfg runs f t q :
  NoDup (concat_dsts (trace (serve_merges cfg runs (mkWorld f t q [])).1)).
Proof.
  assert (Hgen : ∀ w,
    NoDup (concat_dsts (trace w)) →
    (∀ dst, dst ∈ concat_dsts (trace w) → is_Some (fs w !! dst)) →
    NoDup (concat_dsts (trace (serve_merges cfg runs w).1))).
  { induction runs as [|[env r] rest IH]; intros w Hnd Hin; [done|].
    rewrite serve_merges_cons.
    destruct (mergeToShard_dsts cfg env r w) as (evs & Ht & Hd).
    pose proof (mergeToShard_keeps cfg env r w) as (_ & _ & Hf).
    assert (Hnd1 : NoDup (concat_dsts (trace (mergeToShard cfg env r w).1))).
    { rewrite Ht, concat_dsts_app.
      destruct Hd as [->|(tmp & -> & Hfresh & _)];
        [by rewrite app_nil_r|].
      apply NoDup_app. split; [done|]. split; [|apply NoDup_singleton].
      intros dst Hdst ->%list_elem_of_singleton.
      destruct (Hin _ Hdst) as [d Hd]. congruence. }
    assert (Hin1 : ∀ dst,
              dst ∈ concat_dsts (trace (mergeToShard cfg env r w).1) →
              is_Some (fs (mergeToShard cfg env r w).1 !! dst)).
    { intros dst. rewrite Ht, concat_dsts_app.
      intros [Hdst|Hdst]%elem_of_app.
      - destruct (Hin _ Hdst) as [d Hp].
        by destruct (Hf dst d Hp) as [->|(_ & _ & ->)].
      - destruct Hd as [Hd|(tmp & Hd & _ & Hsome)]; rewrite Hd in Hdst.
        + by apply elem_of_nil in Hdst.
        + by apply list_elem_of_singleton in Hdst as ->. }
    destruct (mergeToShard cfg env r w) as [w1 [a|c|msg]];
      simpl in Hnd1, Hin1; [|done|done].
    by apply IH. }
  apply Hgen; simpl; [apply NoDup_nil_2|].
  intros dst Hdst. by apply elem_of_nil in Hdst.
Qed.

(** ** The template function [eq] *)

Section TemplateEqProperties.
Context {float32 float64 other : Type}.
Context (float32_eq : float32 → float32 → bool).
Context (float64_eq : float64 → float64 → bool).
Context (DeepEqual : other → other → bool).

Lemma iface_eq_exact (x y : @iface float32 float64 other) :
  exact_type x = true →
  iface_eq float32_eq float64_eq x y = true ↔ x = y.
Proof.
  intros Hx. destruct x, y; try done; simpl;
    rewrite bool_decide_eq_true; split; congruence.
Qed.

(** X17: with a string, an [int], an [int64] or a [byte] first, [eq] holds
    exactly when one of the other arguments is that same value of that
    same type: an [int] is never [eq] to the [int64] of the same
    number. *)
Theorem eq_on_exact_types (x : @iface float32 float64 other)
    (ys : list (@iface float32 float64 other)) :
  exact_type x = true →
  (template_eq float32_eq float64_eq DeepEqual (x :: ys) = true ↔ x ∈ ys) ∧
  ∀ n, template_eq float32_eq float64_eq DeepEqual [IInt n; IInt64 n] = false.
Proof.
  intros Hx. split; [|done].
  assert (Heq : template_eq float32_eq float64_eq DeepEqual (x :: ys) =
                existsb (iface_eq float32_eq float64_eq x) ys)
    by by destruct x.
  rewrite Heq, existsb_exists. split.
  - intros (y & Hin & Hy). apply iface_eq_exact in Hy as ->; [|done].
    by apply list_elem_of_In.
  - intros Hin. exists x. split; [by apply list_elem_of_In|].
    by apply iface_eq_exact.
Qed.

(** X18: [eq] with no argument or with one argument is false; with more, it
    holds exactly when it holds of the first argument and one of the
    others, so the order of the others and their repetitions do not
    matter. *)
Theorem eq_is_some_pair (args : list (@iface float32 float64 other)) :
  (length args ≤ 1 → template_eq float32_eq float64_eq DeepEqual args = false) ∧
  (∀ x ys, args = x :: ys →
           (template_eq float32_eq float64_eq DeepEqual args = true ↔ ∃ y, y ∈ ys ∧ template_eq float32_eq float64_eq DeepEqual [x; y] = true)) ∧
  (∀ x ys ys', args = x :: ys → (∀ y, y ∈ ys ↔ y ∈ ys') →
               template_eq float32_eq float64_eq DeepEqual (x :: ys') = template_eq float32_eq float64_eq DeepEqual args).
Proof.
  assert (Hpair : ∀ (x : @iface float32 float64 other) ys,
            template_eq float32_eq float64_eq DeepEqual (x :: ys) = true ↔ ∃ y, y ∈ ys ∧ template_eq float32_eq float64_eq DeepEqual [x; y] = true).
  { intros x ys.
    assert (Hex : ∀ f : @iface float32 float64 other → bool,
              existsb f ys = true ↔ ∃ y, y ∈ ys ∧ existsb f [y] = true).
    { intros f. rewrite existsb_exists. split.
      - intros (y & Hin & Hy). exists y.
        split; [by apply list_elem_of_In|]. simpl. by rewrite Hy.
      - intros (y & Hin & Hy). exists y.
        split; [by apply list_elem_of_In|]. simpl in Hy.
        by rewrite orb_false_r in Hy. }
    destruct x; apply Hex. }
  split_and!.
  - destruct args as [|x [|y ys]]; simpl; [done| |lia]. by destruct x.
  - intros x ys ->. apply Hpair.
  - intros x ys ys' -> Hsame.
    destruct (template_eq float32_eq float64_eq DeepEqual (x :: ys)) eqn:H1.
    + apply Hpair in H1 as (y & Hin & Hy). apply Hpair. exists y.
      split; [by apply Hsame|done].
    + destruct (template_eq float32_eq float64_eq DeepEqual (x :: ys')) eqn:H2; [|done].
      apply Hpair in H2 as (y & Hin & Hy).
      assert (template_eq float32_eq float64_eq DeepEqual (x :: ys) = true); [|congruence].
      apply Hpair. exists y. split; [by apply Hsame|done].
Qed.
End TemplateEqProperties.

Lemma eq_on_exact_types_witness :
  (template_eq (λ _ _ : unit, false) (λ _ _ : unit, false)
     (λ _ _ : unit, false)
     [IString "b"; IString "a"; IString "b"] = true ↔
   (IString "b" : @iface unit unit unit) ∈ [IString "a"; IString "b"]) ∧
  ∀ n, template_eq (λ _ _ : unit, false) (λ _ _ : unit, false)
         (λ _ _ : unit, false) [IInt n; IInt64 n] = false.
Proof.
  apply (eq_on_exact_types (λ _ _ : unit, false) (λ _ _ : unit, false)
           (λ _ _ : unit, false) (IString "b") [IString "a"; IString "b"]).
  reflexivity.
Defined.
